(** * Ophelia: identifier generator and voice-room message buffer

    A shallow embedding of [ophelia/utils/obj_utils.py] ([get_id]) and of
    [ophelia/voicerooms/message_buffer.py] ([MessageBuffer]) together with
    the properties of both that the design document states.

    Python integers are unbounded, so they are modelled by [Z]; Python
    strings by [string]; the dictionary of the buffer, which keeps its keys
    in insertion order, by an association list. *)

From Stdlib Require Import ZArith Arith List String Ascii Bool Lia.
Import ListNotations.
Local Open Scope Z_scope.
Local Open Scope string_scope.
Local Open Scope list_scope.

(* ================================================================== *)
(** ** [ophelia/utils/obj_utils.py] *)

Module ObjUtils.

(** [get_id(type_identifier, counter)].  The function reads the clock; the
    value of [int(time.time())] is the explicit argument [now].  Python's
    [%] with a positive modulus is the floored remainder, i.e. [Z.modulo]. *)
Definition get_id (now : Z) (type_identifier counter : Z) : Z :=
  let identifier := type_identifier in
  let date := now mod 100000000 in
  let count := counter + 1 in
  let check := (identifier * date * count) mod 10 in
  date * 1000000 + identifier * 100000 + count * 10 + check.

(** Reading the four fields of the layout [TTTTTTTTinnnnC] back from an
    identifier by decimal decomposition. *)
Definition id_timestamp (id : Z) : Z := id / 1000000.
Definition id_type (id : Z) : Z := (id / 100000) mod 10.
Definition id_counter (id : Z) : Z := (id / 10) mod 10000.
Definition id_check (id : Z) : Z := id mod 10.

(** All four fields of [get_id now t c] decode to the values encoded. *)
Definition decodes (now t c : Z) : Prop :=
  let id := get_id now t c in
  id_timestamp id = now mod 100000000 /\
  id_type id = t /\
  id_counter id = c + 1 /\
  id_check id = (t * (now mod 100000000) * (c + 1)) mod 10.

End ObjUtils.

(* ================================================================== *)
(** ** Text helpers used by the buffer *)

Module TextUtils.

(** [sep.join(parts)] *)
Fixpoint join (sep : string) (parts : list string) : string :=
  match parts with
  | [] => ""
  | [p] => p
  | p :: rest => (p ++ sep ++ join sep rest)%string
  end.

(** Cutting a character sequence into consecutive pieces of [w]
    characters: what fits in one piece is one piece, a longer sequence
    gives its first [w] characters and the pieces of the rest.  [fuel]
    bounds the number of cuts. *)
Fixpoint chunks (fuel w : nat) (s : list ascii) : list (list ascii) :=
  match fuel with
  | O => [s]
  | S fuel' =>
      if (List.length s <=? w)%nat then [s]
      else firstn w s :: chunks fuel' w (skipn w s)
  end.

(** Modelled from the spec: [string_wrap] of [ophelia/utils/text_utils.py],
    which is not part of the sources at hand.  The design document gives
    [wrap(text, max_width) -> chunks]: "split one string into ordered chunks
    each <= max_width characters"; it requires a text shorter than
    [max_width] to give exactly one chunk and a text of
    [2 * max_width - 1] characters to give exactly two, the first of
    [max_width] characters.  The model cuts the text every [max_width]
    characters ([max_width] is positive at the only call site). *)
Definition string_wrap (s : string) (max_width : nat) : list string :=
  map string_of_list_ascii
      (chunks (String.length s) max_width (list_ascii_of_string s)).

End TextUtils.

(* ================================================================== *)
(** ** [ophelia/voicerooms/message_buffer.py]: the embedding *)

(** An exception, identified by its name. *)
Definition exn := string.

(** What one [await send_message(channel=..., text=...)] does: it returns
    (the transport reporting delivery or failure through the value it
    returns, which [dump] discards), or it raises. *)
Inductive send_result :=
| SendReturned (delivered : bool)
| SendRaised (e : exn).

(** The collaborators of the buffer that live outside the two source
    files: the channel type of discord.py, the display strings of
    [ophelia.output.output.disp_str], the helpers of
    [ophelia.utils.text_utils], the configured threshold
    [settings.voiceroom_buffer_size] and the transport
    [ophelia.output.output.send_message], whose effect on the outside
    world is threaded through [World]. *)
Class Env := {
  TextChannel : Type;
  TextChannel_eq_dec : forall a b : TextChannel, {a = b} + {a <> b};
  channel_name : TextChannel -> string;
  strftime : Z -> string;
  voicerooms_log_header : string -> string -> string -> string -> Z -> string;
  voicerooms_log_attachments : string -> string;
  voicerooms_log_tail : string -> string;
  voicerooms_raw_header : string -> string -> string -> string;
  escape_formatting : string -> string;
  quotify : string -> string;
  group_strings : list string -> list string;
  BUFFER_SIZE : Z;
  World : Type;
  send_message : World -> TextChannel -> string -> World * send_result
}.

Definition LOG_WRAP : nat := 1500.

Section MessageBufferModel.
Context {E : Env}.

Record Author := {
  author_name : string;
  discriminator : string;
  author_id : Z
}.

Record Attachment := { filename : string }.

Record Message := {
  created_at : Z;
  channel : TextChannel;
  author : Author;
  attachments : list Attachment;
  content : string;
  clean_content : string
}.

(** Truth value of a Python string: non-empty. *)
Definition truthy (s : string) : bool :=
  match s with EmptyString => false | String _ _ => true end.

(** The three kinds of line [format_message] builds. *)
Definition header_line (message : Message) : string :=
  voicerooms_log_header
    (strftime (created_at message))
    (channel_name (channel message))
    (escape_formatting (author_name (author message)))
    (discriminator (author message))
    (author_id (author message)).

Definition attachments_line (message : Message) : string :=
  voicerooms_log_attachments
    (TextUtils.join ", "
       (map (fun a => escape_formatting (filename a)) (attachments message))).

(** [MessageBuffer.format_message] *)
Definition format_message (message : Message) : list string :=
  let log_list := [header_line message] in
  let log_list :=
    match attachments message with
    | [] => log_list
    | _ :: _ => log_list ++ [attachments_line message]
    end in
  let log_list :=
    if truthy (content message)
    then log_list ++
         map voicerooms_log_tail
           (TextUtils.string_wrap
              (quotify (escape_formatting (clean_content message))) LOG_WRAP)
    else log_list in
  log_list.

(** What precedes the tail lines of a formatted message: the header line
    and, when the message has attachments, the attachments line. *)
Definition front_lines (message : Message) : list string :=
  header_line message ::
  match attachments message with
  | [] => []
  | _ :: _ => [attachments_line message]
  end.

(** The escaped, then quoted text that [format_message] wraps. *)
Definition quoted_text (message : Message) : string :=
  quotify (escape_formatting (clean_content message)).

(** The object: the three slots of the class. [lock] is [true] while the
    [asyncio.Lock] is held. *)
Record MessageBuffer := {
  message_buffer : list (TextChannel * list string);
  lock : bool;
  current_size : Z
}.

(** [MessageBuffer.__init__]: three assignments; it takes no argument and
    does not read [BUFFER_SIZE]. *)
Inductive construction :=
| Constructed (self : MessageBuffer)
| ConstructionRaised (e : exn).

Definition empty_buffer : MessageBuffer :=
  {| message_buffer := []; lock := false; current_size := 0 |}.

Definition init : construction := Constructed empty_buffer.

(** Dictionary operations on the association list. *)
Fixpoint lookup (c : TextChannel) (d : list (TextChannel * list string))
  : option (list string) :=
  match d with
  | [] => None
  | (k, v) :: rest => if TextChannel_eq_dec c k then Some v else lookup c rest
  end.

(** [d.setdefault(c, []).extend(lines)]: the lines go to the end of the
    entry of [c]; a new key goes to the end of the dictionary. *)
Fixpoint setdefault_extend (d : list (TextChannel * list string))
         (c : TextChannel) (lines : list string) : list (TextChannel * list string) :=
  match d with
  | [] => [(c, [] ++ lines)]
  | (k, v) :: rest =>
      if TextChannel_eq_dec c k then (k, v ++ lines) :: rest
      else (k, v) :: setdefault_extend rest c lines
  end.

(** The lines pending for a destination ([[]] when it has no entry). *)
Definition entry (c : TextChannel) (self : MessageBuffer) : list string :=
  match lookup c (message_buffer self) with
  | Some v => v
  | None => []
  end.

(** Events of a run, in the order they happen: a record call appended
    [lines] for [c]; [send_message] was called; the buffer was cleared
    (lines 79-80 of [dump]). *)
Inductive event :=
| EvRecord (c : TextChannel) (lines : list string)
| EvSend (c : TextChannel) (text : string) (r : send_result)
| EvClear.

(** How an awaited method ends: it returns, it raises, or it waits for a
    lock that nobody will release. *)
Inductive outcome :=
| Returned
| Raised (e : exn)
| Blocked.

Record call_result := {
  world : World;
  buffer : MessageBuffer;
  trace : list event;
  result : outcome
}.

(** [for content in compacted_list: await send_message(channel, content)] *)
Fixpoint send_batches (w : World) (c : TextChannel) (compacted_list : list string)
  : World * list event * option exn :=
  match compacted_list with
  | [] => (w, [], None)
  | text :: rest =>
      match send_message w c text with
      | (w', SendRaised e) => (w', [EvSend c text (SendRaised e)], Some e)
      | (w', SendReturned b) =>
          let '(w'', tr, r) := send_batches w' c rest in
          (w'', EvSend c text (SendReturned b) :: tr, r)
      end
  end.

(** [for channel, content_list in self.message_buffer.items(): ...] *)
Fixpoint dump_items (w : World) (items : list (TextChannel * list string))
  : World * list event * option exn :=
  match items with
  | [] => (w, [], None)
  | (c, content_list) :: rest =>
      let compacted_list := group_strings content_list in
      match send_batches w c compacted_list with
      | (w', tr, Some e) => (w', tr, Some e)
      | (w', tr, None) =>
          let '(w'', tr', r) := dump_items w' rest in
          (w'', tr ++ tr', r)
      end
  end.

(** [MessageBuffer.dump].  An exception leaves the [async with] block,
    which releases the lock, before the two clearing statements. *)
Definition dump (w : World) (self : MessageBuffer) : call_result :=
  if lock self then
    {| world := w; buffer := self; trace := []; result := Blocked |}
  else
    match dump_items w (message_buffer self) with
    | (w', tr, Some e) =>
        {| world := w';
           buffer := {| message_buffer := message_buffer self;
                        lock := false;
                        current_size := current_size self |};
           trace := tr; result := Raised e |}
    | (w', tr, None) =>
        {| world := w';
           buffer := {| message_buffer := [];
                        lock := false;
                        current_size := 0 |};
           trace := tr ++ [EvClear]; result := Returned |}
    end.

(** The buffer after the locked block of a record call (lines 89-93 and
    111-119): lines appended, counter incremented, lock released. *)
Definition appended (self : MessageBuffer) (c : TextChannel) (lines : list string)
  : MessageBuffer :=
  {| message_buffer := setdefault_extend (message_buffer self) c lines;
     lock := false;
     current_size := current_size self + 1 |}.

(** The common shape of the two record calls: append under the lock, then,
    outside it, [if self.current_size >= BUFFER_SIZE: await self.dump()]. *)
Definition record_lines (w : World) (self : MessageBuffer)
           (c : TextChannel) (lines : list string) : call_result :=
  if lock self then
    {| world := w; buffer := self; trace := []; result := Blocked |}
  else
    let self' := appended self c lines in
    if (BUFFER_SIZE <=? current_size self')%Z then
      let r := dump w self' in
      {| world := world r; buffer := buffer r;
         trace := EvRecord c lines :: trace r; result := result r |}
    else
      {| world := w; buffer := self';
         trace := [EvRecord c lines]; result := Returned |}.

(** [MessageBuffer.log_message] *)
Definition log_message (w : World) (self : MessageBuffer)
           (c : TextChannel) (message : Message) : call_result :=
  record_lines w self c (format_message message).

(** [MessageBuffer.log_system_msg]; [now] is [datetime.utcnow()]. *)
Definition log_system_msg (w : World) (self : MessageBuffer)
           (log_channel text_channel : TextChannel) (text : string) (now : Z)
  : call_result :=
  record_lines w self log_channel
    [voicerooms_raw_header (strftime now) (channel_name text_channel) text].

(** Calls made on one buffer, one after the other. *)
Inductive op :=
| LogMessage (c : TextChannel) (message : Message)
| LogSystemMsg (log_channel text_channel : TextChannel) (text : string) (now : Z)
| Dump.

Definition is_record (o : op) : bool :=
  match o with Dump => false | _ => true end.

Definition step (w : World) (self : MessageBuffer) (o : op) : call_result :=
  match o with
  | LogMessage c message => log_message w self c message
  | LogSystemMsg lc tc text now => log_system_msg w self lc tc text now
  | Dump => dump w self
  end.

(** A run threads world and buffer through the calls and collects their
    events; its [result] is the outcome of the last call.  A call that
    raises hands the exception to its own caller; the buffer stays in use,
    so the run goes on from the state the call left. *)
Fixpoint run_from (r : call_result) (ops : list op) : call_result :=
  match ops with
  | [] => r
  | o :: rest =>
      let r' := step (world r) (buffer r) o in
      run_from {| world := world r'; buffer := buffer r';
                  trace := trace r ++ trace r'; result := result r' |} rest
  end.

(** A run on a freshly constructed buffer. *)
Definition run_fresh (w : World) (ops : list op) : call_result :=
  run_from {| world := w; buffer := empty_buffer;
              trace := []; result := Returned |} ops.

(** Reading a trace. *)
Definition attempts (tr : list event) : list (TextChannel * string) :=
  flat_map (fun ev => match ev with
                      | EvSend c text _ => [(c, text)]
                      | _ => []
                      end) tr.

Definition batches_to (d : TextChannel) (tr : list event) : list string :=
  flat_map (fun ev => match ev with
                      | EvSend c text _ =>
                          if TextChannel_eq_dec d c then [text] else []
                      | _ => []
                      end) tr.

(** Number of record calls after the last clearing of the buffer. *)
Fixpoint records_since_clear_acc (n : nat) (tr : list event) : nat :=
  match tr with
  | [] => n
  | EvRecord _ _ :: rest => records_since_clear_acc (S n) rest
  | EvClear :: rest => records_since_clear_acc O rest
  | EvSend _ _ _ :: rest => records_since_clear_acc n rest
  end.

Definition records_since_clear (tr : list event) : nat :=
  records_since_clear_acc O tr.

(** Lines recorded for [d] after the last clearing, in recording order. *)
Fixpoint lines_since_clear_acc (d : TextChannel) (acc : list string)
         (tr : list event) : list string :=
  match tr with
  | [] => acc
  | EvRecord c lines :: rest =>
      lines_since_clear_acc d
        (if TextChannel_eq_dec d c then acc ++ lines else acc) rest
  | EvClear :: rest => lines_since_clear_acc d [] rest
  | EvSend _ _ _ :: rest => lines_since_clear_acc d acc rest
  end.

Definition lines_since_clear (d : TextChannel) (tr : list event) : list string :=
  lines_since_clear_acc d [] tr.

(** Kinds of event. *)
Definition is_send (ev : event) : Prop :=
  match ev with EvSend _ _ _ => True | _ => False end.

Definition is_clear (ev : event) : bool :=
  match ev with EvClear => true | _ => false end.

(** A call of [send_message] that raised. *)
Definition raises (ev : event) : bool :=
  match ev with EvSend _ _ (SendRaised _) => true | _ => false end.

(** A call of [send_message] that failed: it raised, or it returned and
    reported failure. *)
Definition failed (r : send_result) : bool :=
  match r with
  | SendRaised _ => true
  | SendReturned delivered => negb delivered
  end.

(** A call of [send_message] that returned. *)
Definition send_returned (ev : event) : Prop :=
  match ev with EvSend _ _ (SendReturned _) => True | _ => False end.

(** What a flush has to send, in order: every batch of every
    destination. *)
Definition plan_items (items : list (TextChannel * list string))
  : list (TextChannel * string) :=
  flat_map (fun item => map (fun text => (fst item, text))
                            (group_strings (snd item))) items.

Definition plan (self : MessageBuffer) : list (TextChannel * string) :=
  plan_items (message_buffer self).

(** The batches a complete flush sends to [d]. *)
Definition batches_of (d : TextChannel) (self : MessageBuffer) : list string :=
  match lookup d (message_buffer self) with
  | Some content_list => group_strings content_list
  | None => []
  end.

(** Isolation of failures, as the design document words it: when a call
    of [send_message] for one destination fails during a flush, the
    batches of every other destination are attempted all the same, and the
    flush reports the failure to its caller. *)
Definition failure_isolated (w : World) (self : MessageBuffer) : Prop :=
  let f := dump w self in
  forall c0 text0 r0,
    In (EvSend c0 text0 r0) (trace f) -> failed r0 = true ->
    (forall c text, In (c, text) (plan self) -> c <> c0 ->
                    In (c, text) (attempts (trace f))) /\
    (exists e, result f = Raised e).

(** The record event of a call ([[]] for [dump]). *)
Definition recorded (o : op) : list event :=
  match o with
  | LogMessage c message => [EvRecord c (format_message message)]
  | LogSystemMsg lc tc text now =>
      [EvRecord lc
         [voicerooms_raw_header (strftime now) (channel_name tc) text]]
  | Dump => []
  end.

(** The buffer a call hands to its flush, when it flushes: [dump] flushes
    the buffer as it is, a record call the buffer with its lines added. *)
Definition before_flush (self : MessageBuffer) (o : op) : MessageBuffer :=
  match o with
  | LogMessage c message => appended self c (format_message message)
  | LogSystemMsg lc tc text now =>
      appended self lc
        [voicerooms_raw_header (strftime now) (channel_name tc) text]
  | Dump => self
  end.

(** The state a buffer reachable from a fresh one is in, [tr] being the
    events so far: the lock is free between calls, a destination has one
    entry, an entry holds the lines recorded since the last clearing, and
    the counter is the number of record calls since then. *)
Record consistent (tr : list event) (self : MessageBuffer) : Prop := {
  lock_free : lock self = false;
  keys_unique : NoDup (map fst (message_buffer self));
  entry_lines : forall d, entry d self = lines_since_clear d tr;
  size_records : current_size self = Z.of_nat (records_since_clear tr)
}.

(** The state a run starts from. *)
Definition start (w : World) (self : MessageBuffer) : call_result :=
  {| world := w; buffer := self; trace := []; result := Returned |}.

End MessageBufferModel.

(* ================================================================== *)
(** ** Concrete collaborators, for running the embedding *)

Module Demo.

Definition newline : ascii := ascii_of_nat 10.

(** Modelled from the spec: [group_strings] of
    [ophelia/utils/text_utils.py], which is not part of the sources at
    hand.  The design document asks for greedy packing: lines are joined,
    in order, with a separator into batches of at most [max_size]
    characters, and a line goes into the current batch whenever it fits. *)
Fixpoint group_from (max_size : nat) (current : string) (lines : list string)
  : list string :=
  match lines with
  | [] => [current]
  | l :: rest =>
      if (String.length current + 1 + String.length l <=? max_size)%nat
      then group_from max_size (current ++ String newline l)%string rest
      else current :: group_from max_size l rest
  end.

Definition group_greedy (max_size : nat) (lines : list string) : list string :=
  match lines with
  | [] => []
  | l :: rest => group_from max_size l rest
  end.

(** The lines a batch was joined from. *)
Fixpoint lines_of_batch (batch : string) : list string :=
  match batch with
  | EmptyString => [EmptyString]
  | String a rest =>
      if Ascii.eqb a newline then EmptyString :: lines_of_batch rest
      else match lines_of_batch rest with
           | [] => [String a EmptyString]
           | l :: ls => String a l :: ls
           end
  end.

(** Escaping of the characters Discord reads as formatting. *)
Fixpoint escape_markdown (s : string) : string :=
  match s with
  | EmptyString => EmptyString
  | String a rest =>
      if (Ascii.eqb a "*" || Ascii.eqb a "_" || Ascii.eqb a "~")%bool
      then String "\" (String a (escape_markdown rest))
      else String a (escape_markdown rest)
  end.

Definition env (threshold : Z)
           (send : nat -> nat -> string -> nat * send_result) : Env :=
  {| TextChannel := nat;
     TextChannel_eq_dec := Nat.eq_dec;
     channel_name := fun c =>
       match c with O => "log-a" | S O => "log-b" | _ => "voice-42" end;
     strftime := fun _ => "2021-03-04 05:06:07";
     voicerooms_log_header := fun time ch name discrim _ =>
       ("[" ++ time ++ "] #" ++ ch ++ " " ++ name ++ "#" ++ discrim)%string;
     voicerooms_log_attachments := fun files =>
       ("Attachments: " ++ files)%string;
     voicerooms_log_tail := fun s => s;
     voicerooms_raw_header := fun time ch text =>
       ("[" ++ time ++ "] #" ++ ch ++ ": " ++ text)%string;
     escape_formatting := escape_markdown;
     quotify := fun s => ("> " ++ s)%string;
     group_strings := group_greedy 80;
     BUFFER_SIZE := threshold;
     World := nat;
     send_message := send |}.

(** Transports: the world counts the calls made. *)
Definition send_ok (w c : nat) (text : string) : nat * send_result :=
  (S w, SendReturned true).

(** Raises for destination [0]. *)
Definition send_raising (w c : nat) (text : string) : nat * send_result :=
  (S w, match c with
        | O => SendRaised "HTTPException"
        | _ => SendReturned true
        end).

(** Reports failure for destination [0] through the value it returns. *)
Definition send_failing (w c : nat) (text : string) : nat * send_result :=
  (S w, match c with
        | O => SendReturned false
        | _ => SendReturned true
        end).

Definition alice : Author :=
  {| author_name := "al_ice"; discriminator := "0001"; author_id := 42 |}.

Definition chat (E : Env) (ch : @TextChannel E) (files : list string)
           (text : string) : @Message E :=
  {| created_at := 1614834367; channel := ch; author := alice;
     attachments := map (fun f => {| filename := f |}) files;
     content := text; clean_content := text |}.

(** A text of [n] letters. *)
Definition letters (n : nat) : string :=
  string_of_list_ascii (repeat "a"%char n).

(** Two record calls for two destinations, and the buffer they leave
    when the threshold is above two. *)
Definition hello (threshold : Z)
           (send : nat -> nat -> string -> nat * send_result)
  : @op (env threshold send) :=
  @LogMessage (env threshold send) 0%nat
              (chat (env threshold send) 2%nat [] "hi").

Definition closed (threshold : Z)
           (send : nat -> nat -> string -> nat * send_result)
  : @op (env threshold send) :=
  @LogSystemMsg (env threshold send) 1%nat 2%nat "Room closed" 5.

Definition two_pending (threshold : Z)
           (send : nat -> nat -> string -> nat * send_result)
  : @call_result (env threshold send) :=
  @run_fresh (env threshold send) 0%nat
             [hello threshold send; closed threshold send].

End Demo.

(* ================================================================== *)
(** ** [ophelia/utils/obj_utils.py]: parameter helpers *)

Module ParamUtils.

(** [datetime.timedelta], as normalised by its constructor. *)
Record timedelta := { days : Z; seconds : Z; microseconds : Z }.

(** The exceptions [match_param] lets out. *)
Inductive error := ValueError | OverflowError.

(** [timedelta(n)]: the first positional argument of the constructor is
    [days]; a magnitude above 999999999 days is an [OverflowError]. *)
Definition timedelta_of_days (n : Z) : timedelta + error :=
  if (Z.abs n <=? 999999999)%Z
  then inl {| days := n; seconds := 0; microseconds := 0 |}
  else inr OverflowError.

Section MatchParam.

(** Python's floats, and the built-in conversions of a string: [int(s)],
    [float(s)] and [distutils.util.strtobool(s)]; [None] is their
    [ValueError]. *)
Variable PyFloat : Type.
Variable int_of_str : string -> option Z.
Variable float_of_str : string -> option PyFloat.
Variable strtobool : string -> option Z.

(** The values [match_param] distinguishes by [isinstance].  [bool] is a
    subclass of [int] in Python; the chain of tests asks for [bool] before
    [int], so that a boolean is a [PBool] here and never a [PInt]. *)
Inductive param :=
| PStr (s : string)
| PBool (b : bool)
| PInt (z : Z)
| PFloat (f : PyFloat)
| PTimedelta (d : timedelta)
| POther.

(** [match_param(original_param, new_param)] *)
Definition match_param (original_param : param) (new_param : string)
  : (param * param) + error :=
  match original_param with
  | PStr _ => inl (PStr new_param, PStr new_param)
  | PBool _ =>
      match strtobool new_param with
      | Some v =>
          let bool_param := negb (v =? 0)%Z in
          inl (PBool bool_param, PBool bool_param)
      | None => inr ValueError
      end
  | PInt _ =>
      match int_of_str new_param with
      | Some int_param => inl (PInt int_param, PInt int_param)
      | None => inr ValueError
      end
  | PFloat _ =>
      match float_of_str new_param with
      | Some float_param => inl (PFloat float_param, PFloat float_param)
      | None => inr ValueError
      end
  | PTimedelta _ =>
      match int_of_str new_param with
      | Some int_param =>
          match timedelta_of_days int_param with
          | inl td => inl (PInt int_param, PTimedelta td)
          | inr e => inr e
          end
      | None => inr ValueError
      end
  | POther => inr ValueError
  end.

(** Two values of the same Python type among the five handled. *)
Definition same_type (a b : param) : bool :=
  match a, b with
  | PStr _, PStr _ => true
  | PBool _, PBool _ => true
  | PInt _, PInt _ => true
  | PFloat _, PFloat _ => true
  | PTimedelta _, PTimedelta _ => true
  | _, _ => false
  end.

(** What YAML stores as a scalar: a string, a boolean or a number. *)
Definition yaml_friendly (a : param) : bool :=
  match a with
  | PStr _ | PBool _ | PInt _ | PFloat _ => true
  | PTimedelta _ | POther => false
  end.

End MatchParam.

Arguments PStr {PyFloat}.
Arguments PBool {PyFloat}.
Arguments PInt {PyFloat}.
Arguments PFloat {PyFloat}.
Arguments PTimedelta {PyFloat}.
Arguments POther {PyFloat}.

(** [inspect.Parameter.kind] *)
Inductive kind :=
| POSITIONAL_ONLY
| POSITIONAL_OR_KEYWORD
| VAR_POSITIONAL
| KEYWORD_ONLY
| VAR_KEYWORD.

(** What can be raised inside the [try] block of the wrapper. *)
Inductive raised :=
| TypeError (msg : string)
| KeyError (key : string)
| OtherException (name : string).

(** How a call of the wrapper ends: it returns [None]; it raises
    [EnforceParamError] from a [TypeError] or [KeyError]; or another
    exception of the wrapped function passes through. *)
Inductive wrapper_outcome :=
| ReturnedNone
| EnforceParamError (cause : raised)
| Propagated (e : raised).

Record wrapper_result := {
  called : bool;
  outcome : wrapper_outcome
}.

Section EnforceParamTypes.

(** Python values and type annotations; [typeguard.check_type(argname,
    value, expected_type)], which gives the message of the [TypeError] it
    raises on a mismatch; the wrapped function, which returns a value or
    raises. *)
Variables (Value Annotation : Type).
Variable check_type : string -> Value -> Annotation -> option string.
Variable function : list Value -> list (string * Value) -> Value + raised.

(** One entry of [inspect.signature(function).parameters]. *)
Record SigParameter := mkParameter {
  p_name : string;
  p_kind : kind;
  annotation : Annotation
}.

Definition is_positional (p : SigParameter) : bool :=
  match p_kind p with
  | POSITIONAL_ONLY | POSITIONAL_OR_KEYWORD => true
  | _ => false
  end.

Definition is_keyword (p : SigParameter) : bool :=
  match p_kind p with
  | KEYWORD_ONLY | POSITIONAL_OR_KEYWORD => true
  | _ => false
  end.

(** The list [pos_params] and the dictionary [keyword_params]. *)
Definition pos_params (sig : list SigParameter) : list (string * Annotation) :=
  map (fun p => (p_name p, annotation p)) (filter is_positional sig).

Definition keyword_params (sig : list SigParameter)
  : list (string * Annotation) :=
  map (fun p => (p_name p, annotation p)) (filter is_keyword sig).

(** [d[k]] for a dictionary built by a comprehension over [d]: the last
    value given for a key is the one kept. *)
Fixpoint dict_get (d : list (string * Annotation)) (k : string)
  : option Annotation :=
  match d with
  | [] => None
  | (n, a) :: rest =>
      match dict_get rest k with
      | Some a' => Some a'
      | None => if String.eqb n k then Some a else None
      end
  end.

(** [for index in range(1, min(len(args), len(pos_params))): check_type(
    pos_params[index][0], args[index], pos_params[index][1])], on the
    pairs of index 1 and above. *)
Fixpoint check_positional (pairs : list ((string * Annotation) * Value))
  : option raised :=
  match pairs with
  | [] => None
  | ((n, a), v) :: rest =>
      match check_type n v a with
      | Some msg => Some (TypeError msg)
      | None => check_positional rest
      end
  end.

(** [for k_name, k_value in kwargs.items(): check_type(k_name, k_value,
    keyword_params[k_name])] *)
Fixpoint check_keywords (kw : list (string * Annotation))
         (kwargs : list (string * Value)) : option raised :=
  match kwargs with
  | [] => None
  | (k_name, k_value) :: rest =>
      match dict_get kw k_name with
      | None => Some (KeyError k_name)
      | Some a =>
          match check_type k_name k_value a with
          | Some msg => Some (TypeError msg)
          | None => check_keywords kw rest
          end
      end
  end.

(** The two loops: the first exception they raise, if any. *)
Definition checks (sig : list SigParameter) (args : list Value)
           (kwargs : list (string * Value)) : option raised :=
  match check_positional (skipn 1 (combine (pos_params sig) args)) with
  | Some e => Some e
  | None => check_keywords (keyword_params sig) kwargs
  end.

(** The [wrapper] that [enforce_param_types(function)] returns; [sig] is
    the signature of [function]. *)
Definition wrapper (sig : list SigParameter) (args : list Value)
           (kwargs : list (string * Value)) : wrapper_result :=
  match checks sig args kwargs with
  | Some e => {| called := false; outcome := EnforceParamError e |}
  | None =>
      match function args kwargs with
      | inl _ => {| called := true; outcome := ReturnedNone |}
      | inr (TypeError msg) =>
          {| called := true; outcome := EnforceParamError (TypeError msg) |}
      | inr (KeyError key) =>
          {| called := true; outcome := EnforceParamError (KeyError key) |}
      | inr (OtherException name) =>
          {| called := true; outcome := Propagated (OtherException name) |}
      end
  end.

End EnforceParamTypes.

Arguments p_name {Annotation}.
Arguments p_kind {Annotation}.
Arguments annotation {Annotation}.

End ParamUtils.

(* ================================================================== *)
(** ** Reading whole runs of the buffer *)

Section RunReadings.
Context {E : Env}.

(** All the lines recorded for [d], in recording order. *)
Definition lines_recorded (d : TextChannel) (tr : list event) : list string :=
  flat_map (fun ev => match ev with
                      | EvRecord c lines =>
                          if TextChannel_eq_dec d c then lines else []
                      | _ => []
                      end) tr.


(** No entry of the dictionary is an empty list. *)
Definition entries_nonempty (self : MessageBuffer) : Prop :=
  Forall (fun item => snd item <> []) (message_buffer self).

End RunReadings.

(* ================================================================== *)
(** ** More concrete collaborators *)

Module Scenarios.

(** A transport whose second call ever raises; the others deliver. *)
Definition send_flaky (w c : nat) (text : string) : nat * send_result :=
  (S w, match w with
        | S O => SendRaised "HTTPException"
        | _ => SendReturned true
        end).


(** A line without a line break. *)
Fixpoint no_newline (s : string) : bool :=
  match s with
  | EmptyString => true
  | String a rest => negb (Ascii.eqb a Demo.newline) && no_newline rest
  end.

(** Record calls for destinations 0, 1, 0, 1, 0. *)
Definition five_calls (E : Env) (a b : @TextChannel E) : list (@op E) :=
  [@LogSystemMsg E a b "one" 1; @LogSystemMsg E b a "two" 2;
   @LogSystemMsg E a b "three" 3; @LogSystemMsg E b a "four" 4;
   @LogSystemMsg E a b "five" 5].

(** [int(s)] on strings of ASCII digits. *)
Fixpoint digits_value (acc : Z) (s : string) : option Z :=
  match s with
  | EmptyString => Some acc
  | String a rest =>
      let n := nat_of_ascii a in
      if ((48 <=? n) && (n <=? 57))%nat
      then digits_value (acc * 10 + Z.of_nat (n - 48)) rest
      else None
  end.

Definition int_of_digits (s : string) : option Z :=
  match s with
  | EmptyString => None
  | String _ _ => digits_value 0 s
  end.

(** [strtobool] on two of its words. *)
Definition strtobool_yes_no (s : string) : option Z :=
  if String.eqb s "yes" then Some 1
  else if String.eqb s "no" then Some 0
  else None.

(** Annotations [int] and [str] over values that are integers or
    strings, and the check of one against the other. *)
Inductive ann := AInt | AStr.
Inductive val := VInt (z : Z) | VStr (s : string).

Definition check_val (argname : string) (v : val) (a : ann) : option string :=
  match v, a with
  | VInt _, AInt => None
  | VStr _, AStr => None
  | _, _ => Some argname
  end.

(** [def set_limit(self, limit: int, *, label: str)] *)
Definition set_limit_sig : list (ParamUtils.SigParameter ann) :=
  [ParamUtils.mkParameter ann "self" ParamUtils.POSITIONAL_OR_KEYWORD AStr;
   ParamUtils.mkParameter ann "limit" ParamUtils.POSITIONAL_OR_KEYWORD AInt;
   ParamUtils.mkParameter ann "label" ParamUtils.KEYWORD_ONLY AStr].

Definition set_limit (args : list val) (kwargs : list (string * val))
  : val + ParamUtils.raised :=
  inl (VInt 0).

End Scenarios.

(* ================================================================== *)
(** ** Properties of [get_id] *)

Module ObjUtilsFacts.
Import ObjUtils.

Lemma get_id_formula (now t c : Z) :
  get_id now t c =
  (now mod 100000000) * 1000000 + t * 100000 + (c + 1) * 10
  + (t * (now mod 100000000) * (c + 1)) mod 10.
Proof. reflexivity. Qed.

Lemma date_range (now : Z) : 0 <= now mod 100000000 < 100000000.
Proof. apply Z.mod_pos_bound; lia. Qed.

Lemma get_id_decodes (now t c : Z) :
  0 <= t <= 9 -> 0 <= c + 1 <= 9999 -> decodes now t c.
Proof.
  intros Ht Hc.
  unfold decodes, id_timestamp, id_type, id_counter, id_check.
  rewrite get_id_formula.
  pose proof (date_range now) as Hd.
  set (d := now mod 100000000) in *.
  set (n := c + 1) in *.
  pose proof (Z.mod_pos_bound (t * d * n) 10 ltac:(lia)) as Hk.
  set (k := (t * d * n) mod 10) in *.
  clearbody d n k.
  repeat split.
  - symmetry; apply (Z.div_unique_pos _ _ _ (t * 100000 + n * 10 + k)); lia.
  - replace ((d * 1000000 + t * 100000 + n * 10 + k) / 100000)
      with (d * 10 + t)
      by (apply (Z.div_unique_pos _ _ _ (n * 10 + k)); lia).
    symmetry; apply (Z.mod_unique_pos _ _ d); lia.
  - replace ((d * 1000000 + t * 100000 + n * 10 + k) / 10)
      with (d * 100000 + t * 10000 + n)
      by (apply (Z.div_unique_pos _ _ _ k); lia).
    symmetry; apply (Z.mod_unique_pos _ _ (d * 10 + t)); lia.
  - symmetry;
      apply (Z.mod_unique_pos _ _ (d * 100000 + t * 10000 + n)); lia.
Qed.

(** C9, as amended: [get_id] evaluated at UNIX time [now] is
    [d*1000000 + t*100000 + (c+1)*10 + k] with [d = now mod 100000000] and
    [k = (t*d*(c+1)) mod 10], for every type identifier [t] and counter
    [c]; and whenever [t] is in 0..9 and [c+1] is in 0..9999, timestamp,
    type tag, counter and check digit are each read back from the result
    by decimal decomposition. *)
Theorem get_id_layout (now t c : Z) :
  get_id now t c =
    (now mod 100000000) * 1000000 + t * 100000 + (c + 1) * 10
    + (t * (now mod 100000000) * (c + 1)) mod 10
  /\ (0 <= t <= 9 -> 0 <= c + 1 <= 9999 -> decodes now t c).
Proof.
  split; [apply get_id_formula | apply get_id_decodes].
Qed.

Lemma get_id_layout_witness :
  (0 <= 7 <= 9) /\ (0 <= 41 + 1 <= 9999) /\
  get_id 1712345678 7 41 = 12345678700422 /\
  decodes 1712345678 7 41.
Proof.
  split; [lia | split; [lia | split; [reflexivity |]]].
  apply (get_id_layout 1712345678 7 41); lia.
Defined.

(** C9, as stated, fails for a negative counter: with [c = -2] the count
    field is [-1], which borrows from the type digit. *)
Lemma get_id_negative_counter :
  (0 <= 1 <= 9) /\ (-2 + 1 <= 9999) /\
  get_id 1712345678 1 (-2) = 12345678099992 /\
  ~ decodes 1712345678 1 (-2).
Proof.
  split; [lia | split; [lia | split; [reflexivity |]]].
  intros (_ & Htype & _).
  vm_compute in Htype. discriminate Htype.
Qed.

End ObjUtilsFacts.

(* ================================================================== *)
(** ** Properties of the wrapping helper *)

Module TextUtilsFacts.
Import TextUtils.

Lemma length_list_ascii_of_string (s : string) :
  List.length (list_ascii_of_string s) = String.length s.
Proof. induction s as [|a s IH]; simpl; congruence. Qed.

Lemma length_string_of_list_ascii (l : list ascii) :
  String.length (string_of_list_ascii l) = List.length l.
Proof. induction l as [|a l IH]; simpl; congruence. Qed.

Lemma string_of_list_ascii_app (l1 l2 : list ascii) :
  string_of_list_ascii (l1 ++ l2) =
  (string_of_list_ascii l1 ++ string_of_list_ascii l2)%string.
Proof. induction l1 as [|a l1 IH]; simpl; congruence. Qed.

(** The pieces, put end to end, are the text. *)
Lemma chunks_concat (w fuel : nat) :
  forall s, List.concat (chunks fuel w s) = s.
Proof.
  induction fuel as [|fuel IH]; intros s; cbn [chunks].
  - cbn. apply app_nil_r.
  - destruct (List.length s <=? w)%nat.
    + cbn. apply app_nil_r.
    + cbn [List.concat]. rewrite IH. apply firstn_skipn.
Qed.

(** With enough fuel no piece is longer than the width. *)
Lemma chunks_bounded (w fuel : nat) :
  (0 < w)%nat ->
  forall s, (List.length s <= fuel + w)%nat ->
            Forall (fun c => (List.length c <= w)%nat) (chunks fuel w s).
Proof.
  intros Hw. induction fuel as [|fuel IH]; intros s Hlen; cbn [chunks].
  - constructor; [exact Hlen | constructor].
  - destruct (Nat.leb_spec (List.length s) w) as [Hle|Hgt].
    + constructor; [exact Hle | constructor].
    + constructor.
      * rewrite length_firstn. lia.
      * apply IH. rewrite length_skipn. lia.
Qed.

(** A text no longer than the width is one piece. *)
Lemma chunks_one (w fuel : nat) (s : list ascii) :
  (List.length s <= w)%nat -> chunks fuel w s = [s].
Proof.
  intros Hlen. destruct fuel as [|fuel]; [reflexivity|].
  cbn [chunks]. now apply Nat.leb_le in Hlen as ->.
Qed.

(** A text longer than the width and at most twice as long is two pieces,
    the first of full width. *)
Lemma chunks_two (w fuel : nat) (s : list ascii) :
  (w < List.length s <= 2 * w)%nat -> (0 < fuel)%nat ->
  chunks fuel w s = [firstn w s; skipn w s].
Proof.
  intros Hlen Hfuel.
  destruct fuel as [|fuel]; [lia|].
  cbn [chunks].
  destruct (Nat.leb_spec (List.length s) w) as [Hle|_]; [lia|].
  f_equal. apply chunks_one. rewrite length_skipn. lia.
Qed.

Lemma string_wrap_concat (s : string) (w : nat) :
  fold_right String.append EmptyString (string_wrap s w) = s.
Proof.
  unfold string_wrap.
  rewrite <- (string_of_list_ascii_of_string s) at 3.
  rewrite <- (chunks_concat w (String.length s) (list_ascii_of_string s))
    at 2.
  induction (chunks (String.length s) w (list_ascii_of_string s))
    as [|c cs IH]; [reflexivity|].
  cbn [map fold_right List.concat].
  rewrite string_of_list_ascii_app. congruence.
Qed.

Lemma string_wrap_bounded (s : string) (w : nat) :
  (0 < w)%nat ->
  Forall (fun c => (String.length c <= w)%nat) (string_wrap s w).
Proof.
  intros Hw. unfold string_wrap. apply Forall_map.
  eapply Forall_impl; [|apply (chunks_bounded w _ Hw)].
  - intros c Hc. simpl. rewrite length_string_of_list_ascii. exact Hc.
  - rewrite length_list_ascii_of_string. lia.
Qed.

Lemma string_wrap_one (s : string) (w : nat) :
  (String.length s <= w)%nat -> string_wrap s w = [s].
Proof.
  intros Hlen. unfold string_wrap.
  rewrite chunks_one by now rewrite length_list_ascii_of_string.
  cbn [map]. now rewrite string_of_list_ascii_of_string.
Qed.

Lemma string_wrap_two (s : string) (w : nat) :
  (w < String.length s <= 2 * w)%nat ->
  exists c1 c2,
    string_wrap s w = [c1; c2] /\
    String.length c1 = w /\
    String.length c2 = (String.length s - w)%nat /\
    (c1 ++ c2)%string = s.
Proof.
  intros Hlen. unfold string_wrap.
  pose proof (length_list_ascii_of_string s) as Hl.
  rewrite chunks_two by lia.
  eexists _, _. split; [reflexivity|].
  rewrite !length_string_of_list_ascii, length_firstn, length_skipn.
  rewrite <- string_of_list_ascii_app, firstn_skipn.
  rewrite string_of_list_ascii_of_string.
  repeat split; lia.
Qed.

End TextUtilsFacts.

(* ================================================================== *)
(** ** Properties of [format_message] *)

Section FormatMessageFacts.
Context {E : Env}.
Import TextUtils TextUtilsFacts.

Lemma truthy_true (s : string) : s <> EmptyString -> truthy s = true.
Proof. destruct s; [congruence | reflexivity]. Qed.

Lemma LOG_WRAP_gt_1 : (1 < LOG_WRAP)%nat.
Proof. unfold LOG_WRAP. apply -> Nat.succ_lt_mono. apply Nat.lt_0_succ. Qed.

(** The lines of a message with content: front lines, then one tail line
    per piece of the wrapped text. *)
Lemma format_message_content (m : Message) :
  content m <> EmptyString ->
  format_message m =
  front_lines m ++
  map voicerooms_log_tail (string_wrap (quoted_text m) LOG_WRAP).
Proof.
  intros Hc. unfold format_message, front_lines, quoted_text.
  rewrite (truthy_true _ Hc).
  destruct (attachments m); reflexivity.
Qed.

Lemma format_message_no_content (m : Message) :
  content m = EmptyString -> format_message m = front_lines m.
Proof.
  intros Hc. unfold format_message, front_lines.
  rewrite Hc. cbn [truthy].
  destruct (attachments m); reflexivity.
Qed.

(** C6: [format_message] puts the header line first; a message with
    neither attachments nor content gives the header line alone; for a
    message with content the tail lines are, piece by piece, the result of
    wrapping at width 1500 the text obtained by escaping first and quoting
    second; when that text is shorter than the width there is exactly one
    tail line; when it has [2 * 1500 - 1] characters there are exactly two,
    the first carrying a piece of 1500 characters. *)
Theorem format_message_shape (m : Message) :
  (exists rest, format_message m = header_line m :: rest) /\
  (attachments m = [] -> content m = EmptyString ->
   format_message m = [header_line m]) /\
  (content m <> EmptyString ->
   format_message m =
   front_lines m ++
   map voicerooms_log_tail
     (string_wrap (quotify (escape_formatting (clean_content m))) 1500)) /\
  (content m <> EmptyString ->
   (String.length (quoted_text m) < LOG_WRAP)%nat ->
   format_message m = front_lines m ++ [voicerooms_log_tail (quoted_text m)]) /\
  (content m <> EmptyString ->
   String.length (quoted_text m) = (2 * LOG_WRAP - 1)%nat ->
   exists c1 c2,
     format_message m =
       front_lines m ++ [voicerooms_log_tail c1; voicerooms_log_tail c2] /\
     String.length c1 = LOG_WRAP /\
     (c1 ++ c2)%string = quoted_text m).
Proof.
  pose proof LOG_WRAP_gt_1 as Hw.
  split; [|split; [|split; [|split]]].
  - destruct (string_dec (content m) EmptyString) as [Hc|Hc].
    + rewrite (format_message_no_content m Hc). unfold front_lines. eauto.
    + rewrite (format_message_content m Hc). unfold front_lines.
      cbn [app]. eauto.
  - intros Ha Hc. rewrite (format_message_no_content m Hc).
    unfold front_lines. now rewrite Ha.
  - intros Hc. apply (format_message_content m Hc).
  - intros Hc Hlen. rewrite (format_message_content m Hc).
    rewrite string_wrap_one by lia. reflexivity.
  - intros Hc Hlen. rewrite (format_message_content m Hc).
    destruct (string_wrap_two (quoted_text m) LOG_WRAP) as (c1 & c2 & Hw2 & H1 & _ & Happ);
      [lia|].
    exists c1, c2. rewrite Hw2. auto.
Qed.

End FormatMessageFacts.

Import Demo.

(** The shape of the formatted lines on concrete messages: a bare
    message, a message with attachments and a short text, and a message
    whose quoted text has 2999 characters. *)
Lemma format_message_shape_witness :
  let E := env 3 send_ok in
  format_message (chat E 2%nat [] "") =
    ["[2021-03-04 05:06:07] #voice-42 al\_ice#0001"] /\
  format_message (chat E 2%nat ["a_b.png"; "c.txt"] "he*llo") =
    ["[2021-03-04 05:06:07] #voice-42 al\_ice#0001";
     "Attachments: a\_b.png, c.txt"; "> he\*llo"] /\
  (exists c1 c2,
     format_message (chat E 2%nat [] (letters 2997)) =
       ["[2021-03-04 05:06:07] #voice-42 al\_ice#0001"; c1; c2] /\
     String.length c1 = 1500%nat /\
     (c1 ++ c2)%string = ("> " ++ letters 2997)%string).
Proof.
  intros E. split; [|split].
  - apply (proj1 (proj2 (format_message_shape (chat E 2%nat [] "")))).
    + reflexivity.
    + reflexivity.
  - apply (proj1 (proj2 (proj2 (proj2
        (format_message_shape (chat E 2%nat ["a_b.png"; "c.txt"] "he*llo")))))).
    + discriminate.
    + apply Nat.ltb_lt. vm_compute. reflexivity.
  - destruct (proj2 (proj2 (proj2 (proj2
        (format_message_shape (chat E 2%nat [] (letters 2997)))))))
      as (c1 & c2 & Hf & Hl & Happ).
    + vm_compute. discriminate.
    + vm_compute. reflexivity.
    + exists c1, c2. split; [exact Hf | split; [exact Hl |]].
      rewrite Happ. vm_compute. reflexivity.
Defined.

(* ================================================================== *)
(** ** Properties of the flush *)

Section DumpFacts.
Context {E : Env}.

Lemma attempts_app (t1 t2 : list event) :
  attempts (t1 ++ t2) = attempts t1 ++ attempts t2.
Proof. apply flat_map_app. Qed.

Lemma batches_to_app (d : TextChannel) (t1 t2 : list event) :
  batches_to d (t1 ++ t2) = batches_to d t1 ++ batches_to d t2.
Proof. apply flat_map_app. Qed.

(** The inner loop either sends every batch, or stops at the first call
    that raises. *)
Lemma send_batches_cases (c : TextChannel) (l : list string) :
  forall w,
  match send_batches w c l with
  | (_, tr, None) =>
      attempts tr = map (pair c) l /\ Forall send_returned tr
  | (_, tr, Some e) =>
      exists pre text post tr0,
        l = pre ++ text :: post /\
        tr = tr0 ++ [EvSend c text (SendRaised e)] /\
        attempts tr0 = map (pair c) pre /\
        Forall send_returned tr0
  end.
Proof.
  induction l as [|text rest IH]; intros w; cbn [send_batches].
  - split; constructor.
  - destruct (send_message w c text) as [w' [b|e]].
    + specialize (IH w').
      destruct (send_batches w' c rest) as [[w'' tr] [e|]].
      * destruct IH as (pre & text' & post & tr0 & Hl & Htr & Hatt & Hall).
        exists (text :: pre), text', post,
               (EvSend c text (SendReturned b) :: tr0).
        subst. repeat split.
        -- cbn [attempts flat_map app map] in *. now f_equal.
        -- constructor; [exact I | exact Hall].
      * destruct IH as [Hatt Hall]. split.
        -- cbn [attempts flat_map app map] in *. now f_equal.
        -- constructor; [exact I | exact Hall].
    + exists [], text, rest, []. repeat split. constructor.
Qed.

Lemma plan_items_cons (c : TextChannel) (content_list : list string)
      (rest : list (TextChannel * list string)) :
  plan_items ((c, content_list) :: rest) =
  map (pair c) (group_strings content_list) ++ plan_items rest.
Proof. reflexivity. Qed.

(** The outer loop: the same alternative, over the whole plan. *)
Lemma dump_items_cases (items : list (TextChannel * list string)) :
  forall w,
  match dump_items w items with
  | (_, tr, None) =>
      attempts tr = plan_items items /\ Forall send_returned tr
  | (_, tr, Some e) =>
      exists pre c text post tr0,
        plan_items items = pre ++ (c, text) :: post /\
        tr = tr0 ++ [EvSend c text (SendRaised e)] /\
        attempts tr0 = pre /\
        Forall send_returned tr0
  end.
Proof.
  induction items as [|[c content_list] rest IH]; intros w;
    cbn [dump_items].
  - split; constructor.
  - rewrite plan_items_cons.
    pose proof (send_batches_cases c (group_strings content_list) w) as Hs.
    destruct (send_batches w c (group_strings content_list))
      as [[w' tr] [e|]].
    + destruct Hs as (pre & text & post & tr0 & Hl & Htr & Hatt & Hall).
      exists (map (pair c) pre), c, text,
             (map (pair c) post ++ plan_items rest), tr0.
      repeat split; try assumption.
      rewrite Hl, map_app, <- app_assoc. reflexivity.
    + destruct Hs as [Hatt Hall].
      specialize (IH w').
      destruct (dump_items w' rest) as [[w'' tr'] [e|]].
      * destruct IH as (pre & c' & text & post & tr0 & Hp & Htr & Ha & Hall').
        exists (map (pair c) (group_strings content_list) ++ pre),
               c', text, post, (tr ++ tr0).
        repeat split.
        -- rewrite Hp, <- app_assoc. reflexivity.
        -- rewrite Htr, app_assoc. reflexivity.
        -- rewrite attempts_app, Hatt, Ha. reflexivity.
        -- apply Forall_app. split; assumption.
      * destruct IH as [Ha Hall']. split.
        -- rewrite attempts_app, Hatt, Ha. reflexivity.
        -- apply Forall_app. split; assumption.
Qed.

Lemma unlocked_eta (self : MessageBuffer) :
  lock self = false ->
  {| message_buffer := message_buffer self; lock := false;
     current_size := current_size self |} = self.
Proof. destruct self; simpl; intros ->; reflexivity. Qed.

(** The two ways a flush of an unlocked buffer ends.  Either every
    planned batch was sent, each call returned, and the buffer is cleared;
    or one call raised, nothing after it was sent, the exception reaches
    the caller, and the buffer is as it was. *)
Lemma dump_cases (w : World) (self : MessageBuffer) :
  lock self = false ->
  (exists w' tr,
      dump w self = {| world := w'; buffer := empty_buffer;
                       trace := tr ++ [EvClear]; result := Returned |} /\
      attempts tr = plan self /\ Forall send_returned tr)
  \/
  (exists w' e pre c text post tr0,
      dump w self = {| world := w'; buffer := self;
                       trace := tr0 ++ [EvSend c text (SendRaised e)];
                       result := Raised e |} /\
      plan self = pre ++ (c, text) :: post /\
      attempts tr0 = pre /\ Forall send_returned tr0).
Proof.
  intros Hlock. unfold dump, plan. rewrite Hlock.
  pose proof (dump_items_cases (message_buffer self) w) as Hd.
  destruct (dump_items w (message_buffer self)) as [[w' tr] [e|]].
  - right. destruct Hd as (pre & c & text & post & tr0 & Hp & Htr & Ha & Hall).
    exists w', e, pre, c, text, post, tr0.
    rewrite (unlocked_eta self Hlock). subst tr. auto.
  - left. destruct Hd as [Ha Hall]. exists w', tr. auto.
Qed.

End DumpFacts.

Section FlushOutcome.
Context {E : Env}.

Lemma returned_not_raises (tr : list event) :
  Forall send_returned tr -> existsb raises tr = false.
Proof.
  induction 1 as [|ev tr Hev _ IH]; [reflexivity|].
  cbn [existsb]. rewrite IH.
  destruct ev as [| c text [b|e] |]; simpl in *; tauto.
Qed.

Lemma existsb_raises_snoc (tr : list event) (ev : event) :
  existsb raises (tr ++ [ev]) = (existsb raises tr || raises ev)%bool.
Proof. rewrite existsb_app. cbn [existsb]. now rewrite orb_false_r. Qed.

(** C1, as amended: a flush in which no call of [send_message] raises
    ends with the buffer cleared (empty mapping, counter 0), whatever
    success or failure the calls reported through the values they
    returned; a flush in which a call raises ends at that call with the
    exception, and leaves mapping and counter as they were. *)
Theorem dump_clears_unless_send_raises (w : World) (self : MessageBuffer) :
  lock self = false ->
  let f := dump w self in
  (existsb raises (trace f) = false ->
   result f = Returned /\
   message_buffer (buffer f) = [] /\ current_size (buffer f) = 0) /\
  (existsb raises (trace f) = true ->
   (exists e, result f = Raised e) /\
   message_buffer (buffer f) = message_buffer self /\
   current_size (buffer f) = current_size self).
Proof.
  intros Hlock f. subst f.
  destruct (dump_cases w self Hlock)
    as [(w' & tr & -> & _ & Hall)
       |(w' & e & pre & c & text & post & tr0 & -> & _ & _ & Hall)];
    cbn [trace result buffer]; rewrite existsb_raises_snoc;
    rewrite (returned_not_raises _ Hall); cbn [raises orb]; split; intros H;
    try discriminate H.
  - repeat split.
  - split; [exists e|]; repeat split.
Qed.

(** C2, as amended: a flush sends the batches destination by destination
    in the order of the mapping.  While the calls of [send_message]
    return, whatever they report, it goes on, attempts every batch of
    every destination, and returns without reporting anything.  The first
    call that raises ends it: the exception reaches the caller of the
    flush, and no batch after that one is attempted. *)
Theorem dump_stops_at_first_raise (w : World) (self : MessageBuffer) :
  lock self = false ->
  let f := dump w self in
  (result f = Returned /\
   attempts (trace f) = plan self /\
   existsb raises (trace f) = false)
  \/
  (exists e pre c text post tr0,
     result f = Raised e /\
     plan self = pre ++ (c, text) :: post /\
     trace f = tr0 ++ [EvSend c text (SendRaised e)] /\
     attempts tr0 = pre /\
     existsb raises tr0 = false /\
     attempts (trace f) = pre ++ [(c, text)]).
Proof.
  intros Hlock f. subst f.
  destruct (dump_cases w self Hlock)
    as [(w' & tr & -> & Hplan & Hall)
       |(w' & e & pre & c & text & post & tr0 & -> & Hplan & Hatt & Hall)];
    cbn [trace result buffer].
  - left. repeat split.
    + rewrite attempts_app, Hplan. cbn. apply app_nil_r.
    + rewrite existsb_raises_snoc, (returned_not_raises _ Hall). reflexivity.
  - right. exists e, pre, c, text, post, tr0.
    repeat split; try assumption.
    + apply returned_not_raises, Hall.
    + rewrite attempts_app, Hatt. reflexivity.
Qed.

(** C10: [dump] may be called in any state.  On a buffer with an empty
    mapping it calls [send_message] not once and leaves the mapping empty
    and the counter 0; and once a flush has returned, a second flush right
    after it sends nothing and changes nothing, so the two together send
    what the first one sent. *)
Theorem dump_idempotent (w : World) (self : MessageBuffer) :
  lock self = false ->
  (message_buffer self = [] ->
   dump w self = {| world := w; buffer := empty_buffer;
                    trace := [EvClear]; result := Returned |}) /\
  (let f1 := dump w self in
   result f1 = Returned ->
   let f2 := dump (world f1) (buffer f1) in
   attempts (trace f2) = [] /\
   result f2 = Returned /\
   buffer f2 = buffer f1 /\
   world f2 = world f1 /\
   attempts (trace f1 ++ trace f2) = attempts (trace f1)).
Proof.
  intros Hlock. split.
  - intros Hempty. unfold dump. rewrite Hlock, Hempty. reflexivity.
  - intros f1 Hret f2. subst f1 f2.
    destruct (dump_cases w self Hlock)
      as [(w' & tr & Hd & _ & _)
         |(w' & e & pre & c & text & post & tr0 & Hd & _)];
      rewrite Hd in *; cbn [result] in Hret; [|discriminate Hret].
    cbn [world buffer trace]. unfold dump at 1 2 3 4 5.
    cbn [lock empty_buffer message_buffer dump_items trace result buffer
         world app].
    repeat split. rewrite attempts_app. cbn. apply app_nil_r.
Qed.

End FlushOutcome.

(** A flush of the buffer with two destinations:
    with a transport that reports failure for the first one by the value
    it returns, the flush clears the buffer. *)
Lemma dump_clears_unless_send_raises_witness :
  let E := env 3 send_failing in
  let r := two_pending 3 send_failing in
  lock (buffer r) = false /\
  result (dump (world r) (buffer r)) = Returned /\
  message_buffer (buffer (dump (world r) (buffer r))) = [] /\
  current_size (buffer (dump (world r) (buffer r))) = 0.
Proof.
  intros E r. split; [reflexivity|].
  apply (proj1 (@dump_clears_unless_send_raises E (world r) (buffer r)
                  eq_refl)).
  vm_compute. reflexivity.
Defined.

(** C1, as stated, fails when a call of [send_message] raises: the buffer
    with two destinations is reached by two record calls, the transport
    raises for the first destination, and after the flush both entries
    and the count of 2 are still there. *)
Lemma dump_raising_keeps_buffer :
  let E := env 3 send_raising in
  let r := two_pending 3 send_raising in
  let f := dump (world r) (buffer r) in
  lock (buffer r) = false /\
  result f = Raised "HTTPException" /\
  List.length (message_buffer (buffer f)) = 2%nat /\
  current_size (buffer f) = 2 /\
  ~ (message_buffer (buffer f) = [] /\ current_size (buffer f) = 0).
Proof.
  intros E r f. vm_compute.
  repeat split. intros [_ H]. discriminate H.
Qed.

Lemma dump_stops_at_first_raise_witness :
  let E := env 3 send_raising in
  let r := two_pending 3 send_raising in
  let f := dump (world r) (buffer r) in
  lock (buffer r) = false /\
  ((result f = Returned /\
    attempts (trace f) = plan (buffer r) /\
    existsb raises (trace f) = false)
   \/
   (exists e pre c text post tr0,
      result f = Raised e /\
      plan (buffer r) = pre ++ (c, text) :: post /\
      trace f = tr0 ++ [EvSend c text (SendRaised e)] /\
      attempts tr0 = pre /\
      existsb raises tr0 = false /\
      attempts (trace f) = pre ++ [(c, text)])).
Proof.
  intros E r f. split; [reflexivity|].
  apply (@dump_stops_at_first_raise E (world r) (buffer r)). reflexivity.
Defined.

(** C2, as stated, fails on the buffer with two destinations.  When the
    transport raises for the first destination, the batch of the second
    one is never attempted; when it reports the failure through the value
    it returns, every batch is attempted but the flush returns normally
    and reports nothing. *)
Lemma dump_does_not_isolate_failures :
  (let E := env 3 send_raising in
   let r := two_pending 3 send_raising in
   lock (buffer r) = false /\
   ~ failure_isolated (world r) (buffer r)) /\
  (let E := env 3 send_failing in
   let r := two_pending 3 send_failing in
   lock (buffer r) = false /\
   ~ failure_isolated (world r) (buffer r)).
Proof.
  split; intros E r; (split; [reflexivity|]); intros H; red in H.
  - vm_compute in H.
    destruct (H _ _ _ (or_introl eq_refl) eq_refl) as [Hall _].
    destruct (Hall 1%nat _ (or_intror (or_introl eq_refl))
                   ltac:(discriminate)) as [Hin|[]].
    discriminate Hin.
  - vm_compute in H.
    destruct (H _ _ _ (or_introl eq_refl) eq_refl) as [_ [e He]].
    discriminate He.
Qed.

Lemma dump_idempotent_witness :
  let E := env 3 send_ok in
  let r := two_pending 3 send_ok in
  let f1 := dump (world r) (buffer r) in
  let f2 := dump (world f1) (buffer f1) in
  lock (buffer r) = false /\
  result f1 = Returned /\
  attempts (trace f2) = [] /\
  result f2 = Returned /\
  buffer f2 = buffer f1 /\
  world f2 = world f1 /\
  attempts (trace f1 ++ trace f2) = attempts (trace f1).
Proof.
  intros E r f1 f2.
  split; [reflexivity | split; [reflexivity|]].
  apply (proj2 (@dump_idempotent E (world r) (buffer r) eq_refl)).
  reflexivity.
Defined.

(* ================================================================== *)
(** ** The dictionary and the trace *)

Section StoreFacts.
Context {E : Env}.

Lemma lookup_absent (d : TextChannel) (items : list (TextChannel * list string)) :
  ~ In d (map fst items) -> lookup d items = None.
Proof.
  induction items as [|[k v] rest IH]; intros Hin; [reflexivity|].
  cbn [lookup]. destruct (TextChannel_eq_dec d k) as [->|Hne].
  - exfalso. apply Hin. now left.
  - apply IH. intros H. apply Hin. now right.
Qed.

Lemma lookup_setdefault_extend (d c : TextChannel) (lines : list string)
      (items : list (TextChannel * list string)) :
  lookup d (setdefault_extend items c lines) =
  if TextChannel_eq_dec d c
  then Some (match lookup c items with
             | Some v => v ++ lines
             | None => lines
             end)
  else lookup d items.
Proof.
  induction items as [|[k v] rest IH]; cbn [setdefault_extend lookup app].
  - destruct (TextChannel_eq_dec d c); reflexivity.
  - destruct (TextChannel_eq_dec c k) as [->|Hck]; cbn [lookup].
    + destruct (TextChannel_eq_dec d k); reflexivity.
    + destruct (TextChannel_eq_dec d k) as [->|Hdk].
      * destruct (TextChannel_eq_dec k c); [congruence | reflexivity].
      * exact IH.
Qed.

Lemma keys_setdefault_extend (c : TextChannel) (lines : list string)
      (items : list (TextChannel * list string)) :
  map fst (setdefault_extend items c lines) =
  if in_dec TextChannel_eq_dec c (map fst items)
  then map fst items
  else map fst items ++ [c].
Proof.
  induction items as [|[k v] rest IH]; [reflexivity|].
  cbn [setdefault_extend map fst].
  destruct (TextChannel_eq_dec c k) as [->|Hck].
  - destruct (in_dec TextChannel_eq_dec k (k :: map fst rest)) as [_|Hn];
      [reflexivity | exfalso; apply Hn; now left].
  - cbn [map fst]. rewrite IH.
    destruct (in_dec TextChannel_eq_dec c (map fst rest)) as [Hin|Hn];
      destruct (in_dec TextChannel_eq_dec c (k :: map fst rest)) as [Hin'|Hn'];
      try reflexivity.
    + exfalso. apply Hn'. now right.
    + exfalso. destruct Hin' as [Heq|Hin']; [congruence | contradiction].
Qed.

Lemma NoDup_snoc (A : Type) (l : list A) (a : A) :
  NoDup l -> ~ In a l -> NoDup (l ++ [a]).
Proof.
  intros Hl Ha. apply NoDup_app; [exact Hl | repeat constructor; auto |].
  intros x Hx [<-|[]]. exact (Ha Hx).
Qed.

Lemma NoDup_setdefault_extend (c : TextChannel) (lines : list string)
      (items : list (TextChannel * list string)) :
  NoDup (map fst items) ->
  NoDup (map fst (setdefault_extend items c lines)).
Proof.
  intros Hnd. rewrite keys_setdefault_extend.
  destruct (in_dec TextChannel_eq_dec c (map fst items)); [exact Hnd|].
  now apply NoDup_snoc.
Qed.

Lemma entry_appended (d c : TextChannel) (lines : list string)
      (self : MessageBuffer) :
  entry d (appended self c lines) =
  entry d self ++ (if TextChannel_eq_dec d c then lines else []).
Proof.
  unfold entry, appended. cbn [message_buffer].
  rewrite lookup_setdefault_extend.
  destruct (TextChannel_eq_dec d c) as [->|Hne].
  - destruct (lookup c (message_buffer self)); reflexivity.
  - now rewrite app_nil_r.
Qed.

Lemma records_since_clear_acc_app (t1 t2 : list event) :
  forall n,
  records_since_clear_acc n (t1 ++ t2) =
  records_since_clear_acc (records_since_clear_acc n t1) t2.
Proof.
  induction t1 as [|ev t1 IH]; intros n; [reflexivity|].
  destruct ev; cbn [app records_since_clear_acc]; apply IH.
Qed.

Lemma lines_since_clear_acc_app (d : TextChannel) (t1 t2 : list event) :
  forall acc,
  lines_since_clear_acc d acc (t1 ++ t2) =
  lines_since_clear_acc d (lines_since_clear_acc d acc t1) t2.
Proof.
  induction t1 as [|ev t1 IH]; intros acc; [reflexivity|].
  destruct ev; cbn [app lines_since_clear_acc]; apply IH.
Qed.

Lemma records_since_clear_acc_sends (tr : list event) :
  Forall is_send tr -> forall n, records_since_clear_acc n tr = n.
Proof.
  induction 1 as [|ev tr Hev _ IH]; intros n; [reflexivity|].
  destruct ev; try contradiction. apply IH.
Qed.

Lemma lines_since_clear_acc_sends (d : TextChannel) (tr : list event) :
  Forall is_send tr -> forall acc, lines_since_clear_acc d acc tr = acc.
Proof.
  induction 1 as [|ev tr Hev _ IH]; intros acc; [reflexivity|].
  destruct ev; try contradiction. apply IH.
Qed.

Lemma existsb_is_clear_sends (tr : list event) :
  Forall is_send tr -> existsb is_clear tr = false.
Proof.
  induction 1 as [|ev tr Hev _ IH]; [reflexivity|].
  destruct ev; try contradiction. exact IH.
Qed.

Lemma attempts_no_sends (tr : list event) :
  Forall (fun ev => ~ is_send ev) tr -> attempts tr = [].
Proof.
  induction 1 as [|ev tr Hev _ IH]; [reflexivity|].
  destruct ev; cbn [attempts flat_map app] in *;
    try exact IH. exfalso. apply Hev. exact I.
Qed.

Lemma returned_is_send (tr : list event) :
  Forall send_returned tr -> Forall is_send tr.
Proof.
  apply Forall_impl. intros [| c text [b|e] |]; simpl; tauto.
Qed.

End StoreFacts.

(* ================================================================== *)
(** ** Record calls, runs and their invariant *)

Section RunFacts.
Context {E : Env}.

(** A flush either ends with the clearing, or raises and leaves the
    buffer alone; its other events are calls of [send_message]. *)
Lemma dump_shape (w : World) (self : MessageBuffer) :
  lock self = false ->
  (exists tr,
      Forall is_send tr /\
      trace (dump w self) = tr ++ [EvClear] /\
      buffer (dump w self) = empty_buffer /\
      result (dump w self) = Returned)
  \/
  (exists e,
      Forall is_send (trace (dump w self)) /\
      buffer (dump w self) = self /\
      result (dump w self) = Raised e).
Proof.
  intros Hlock.
  destruct (dump_cases w self Hlock)
    as [(w' & tr & -> & _ & Hall)
       |(w' & e & pre & c & text & post & tr0 & -> & _ & _ & Hall)];
    cbn [trace result buffer].
  - left. exists tr. auto using returned_is_send.
  - right. exists e. repeat split.
    apply Forall_app. split; [now apply returned_is_send|].
    repeat constructor.
Qed.

Lemma record_lines_below (w : World) (self : MessageBuffer)
      (c : TextChannel) (lines : list string) :
  lock self = false -> current_size self + 1 < BUFFER_SIZE ->
  record_lines w self c lines =
  {| world := w; buffer := appended self c lines;
     trace := [EvRecord c lines]; result := Returned |}.
Proof.
  intros Hlock Hlt. unfold record_lines. rewrite Hlock.
  cbn [appended current_size].
  destruct (Z.leb_spec BUFFER_SIZE (current_size self + 1)); [lia|].
  reflexivity.
Qed.

Lemma record_lines_reached (w : World) (self : MessageBuffer)
      (c : TextChannel) (lines : list string) :
  lock self = false -> BUFFER_SIZE <= current_size self + 1 ->
  record_lines w self c lines =
  let f := dump w (appended self c lines) in
  {| world := world f; buffer := buffer f;
     trace := EvRecord c lines :: trace f; result := result f |}.
Proof.
  intros Hlock Hle. unfold record_lines. rewrite Hlock.
  cbn [appended current_size].
  destruct (Z.leb_spec BUFFER_SIZE (current_size self + 1)); [|lia].
  reflexivity.
Qed.

Lemma step_record (w : World) (self : MessageBuffer) (o : op) :
  is_record o = true ->
  exists c lines,
    recorded o = [EvRecord c lines] /\
    step w self o = record_lines w self c lines.
Proof.
  destruct o as [c m | lc tc text now |]; intros Hrec;
    [| | discriminate Hrec]; eexists _, _; split; reflexivity.
Qed.

Lemma consistent_fresh : consistent [] empty_buffer.
Proof. split; try reflexivity. constructor. Qed.

Lemma consistent_appended (tr : list event) (self : MessageBuffer)
      (c : TextChannel) (lines : list string) :
  consistent tr self ->
  consistent (tr ++ [EvRecord c lines]) (appended self c lines).
Proof.
  intros [Hlock Hkeys Hentry Hsize]. split.
  - reflexivity.
  - apply NoDup_setdefault_extend, Hkeys.
  - intros d. rewrite entry_appended, Hentry.
    unfold lines_since_clear. rewrite lines_since_clear_acc_app.
    cbn [lines_since_clear_acc].
    destruct (TextChannel_eq_dec d c); [reflexivity | apply app_nil_r].
  - cbn [appended current_size]. rewrite Hsize.
    unfold records_since_clear. rewrite records_since_clear_acc_app.
    cbn [records_since_clear_acc]. lia.
Qed.

Lemma consistent_sends (tr tr' : list event) (self : MessageBuffer) :
  consistent tr self -> Forall is_send tr' -> consistent (tr ++ tr') self.
Proof.
  intros [Hlock Hkeys Hentry Hsize] Hsends. split; try assumption.
  - intros d. rewrite Hentry.
    unfold lines_since_clear. rewrite lines_since_clear_acc_app.
    now rewrite (lines_since_clear_acc_sends d tr' Hsends).
  - rewrite Hsize. unfold records_since_clear.
    rewrite records_since_clear_acc_app.
    now rewrite (records_since_clear_acc_sends tr' Hsends).
Qed.

Lemma consistent_cleared (tr : list event) :
  consistent (tr ++ [EvClear]) empty_buffer.
Proof.
  split; try reflexivity.
  - constructor.
  - intros d. unfold lines_since_clear.
    rewrite lines_since_clear_acc_app. reflexivity.
  - unfold records_since_clear.
    rewrite records_since_clear_acc_app. reflexivity.
Qed.

Lemma consistent_dump (tr : list event) (w : World) (self : MessageBuffer) :
  consistent tr self ->
  consistent (tr ++ trace (dump w self)) (buffer (dump w self)).
Proof.
  intros Hc.
  destruct (dump_shape w self (lock_free _ _ Hc))
    as [(tr' & Hs & -> & -> & _) | (e & Hs & -> & _)].
  - rewrite app_assoc. apply consistent_cleared.
  - now apply consistent_sends.
Qed.

Lemma consistent_record_lines (tr : list event) (w : World)
      (self : MessageBuffer) (c : TextChannel) (lines : list string) :
  consistent tr self ->
  consistent (tr ++ trace (record_lines w self c lines))
             (buffer (record_lines w self c lines)).
Proof.
  intros Hc. pose proof (lock_free _ _ Hc) as Hlock.
  destruct (Z.lt_ge_cases (current_size self + 1) BUFFER_SIZE) as [Hlt|Hge].
  - rewrite (record_lines_below w self c lines Hlock Hlt).
    cbn [trace buffer]. now apply consistent_appended.
  - rewrite (record_lines_reached w self c lines Hlock Hge).
    cbn [trace buffer].
    change (EvRecord c lines :: trace (dump w (appended self c lines)))
      with ([EvRecord c lines] ++ trace (dump w (appended self c lines))).
    rewrite app_assoc.
    apply consistent_dump. now apply consistent_appended.
Qed.

Lemma consistent_step (tr : list event) (w : World) (self : MessageBuffer)
      (o : op) :
  consistent tr self ->
  consistent (tr ++ trace (step w self o)) (buffer (step w self o)).
Proof.
  intros Hc. destruct o; cbn [step].
  - now apply consistent_record_lines.
  - now apply consistent_record_lines.
  - now apply consistent_dump.
Qed.

Lemma consistent_run (ops : list op) :
  forall r, consistent (trace r) (buffer r) ->
            consistent (trace (run_from r ops)) (buffer (run_from r ops)).
Proof.
  induction ops as [|o ops IH]; intros r Hc; [exact Hc|].
  cbn [run_from]. apply IH. cbn [trace buffer].
  now apply consistent_step.
Qed.

Lemma consistent_run_fresh (w : World) (ops : list op) :
  consistent (trace (run_fresh w ops)) (buffer (run_fresh w ops)).
Proof. apply consistent_run. apply consistent_fresh. Qed.


End RunFacts.

(* ================================================================== *)
(** ** The counter and the threshold *)

Section ThresholdFacts.
Context {E : Env}.

Lemma attempts_recorded (ops : list op) :
  attempts (flat_map recorded ops) = [].
Proof.
  induction ops as [|o ops IH]; [reflexivity|].
  cbn [flat_map]. rewrite attempts_app, IH.
  destruct o; reflexivity.
Qed.

(** Record calls that stay below the threshold only append. *)
Lemma run_below (ops : list op) :
  forall r,
  lock (buffer r) = false ->
  forallb is_record ops = true ->
  current_size (buffer r) + Z.of_nat (List.length ops) < BUFFER_SIZE ->
  let r' := run_from r ops in
  trace r' = trace r ++ flat_map recorded ops /\
  world r' = world r /\
  (result r = Returned -> result r' = Returned) /\
  current_size (buffer r') =
    current_size (buffer r) + Z.of_nat (List.length ops) /\
  lock (buffer r') = false.
Proof.
  induction ops as [|o ops IH]; intros r Hlock Hrec Hlt.
  - cbn. rewrite app_nil_r, Z.add_0_r. auto.
  - cbn [forallb] in Hrec. apply andb_prop in Hrec as [Ho Hrec].
    cbn [List.length] in Hlt. rewrite Nat2Z.inj_succ in Hlt.
    destruct (step_record (world r) (buffer r) o Ho)
      as (c & lines & Hev & Hstep).
    rewrite (record_lines_below _ _ c lines Hlock) in Hstep by lia.
    cbn [run_from]. rewrite Hstep. cbn [world buffer trace result].
    match goal with |- context [run_from ?x ops] => specialize (IH x) end.
    cbn [world buffer trace result appended current_size lock] in IH.
    destruct IH as (Htr & Hw & Hres & Hsize & Hl); [reflexivity|exact Hrec|lia|].
    cbv zeta. rewrite Htr, Hw, Hsize.
    cbn [flat_map List.length]. rewrite Hev, <- app_assoc, Nat2Z.inj_succ.
    repeat split; auto; lia.
Qed.

(** A record call that reaches the threshold is its append followed by
    [dump]. *)
Lemma step_reached (w : World) (self : MessageBuffer) (o : op) :
  lock self = false -> is_record o = true ->
  BUFFER_SIZE <= current_size self + 1 ->
  let f := dump w (before_flush self o) in
  step w self o =
  {| world := world f; buffer := buffer f;
     trace := recorded o ++ trace f; result := result f |}.
Proof.
  intros Hlock Hrec Hge.
  destruct o as [c m | lc tc text now |]; [| | discriminate Hrec];
    cbn [step before_flush recorded];
    [unfold log_message | unfold log_system_msg];
    now rewrite record_lines_reached.
Qed.

Lemma step_below (w : World) (self : MessageBuffer) (o : op) :
  lock self = false -> is_record o = true ->
  current_size self + 1 < BUFFER_SIZE ->
  step w self o =
  {| world := w; buffer := before_flush self o;
     trace := recorded o; result := Returned |}.
Proof.
  intros Hlock Hrec Hlt.
  destruct o as [c m | lc tc text now |]; [| | discriminate Hrec];
    cbn [step before_flush recorded];
    [unfold log_message | unfold log_system_msg];
    now rewrite record_lines_below.
Qed.

Lemma before_flush_unlocked (self : MessageBuffer) (o : op) :
  lock self = false -> lock (before_flush self o) = false.
Proof. destruct o; intros H; [reflexivity | reflexivity | exact H]. Qed.

Lemma attempts_recorded_one (o : op) : attempts (recorded o) = [].
Proof. destruct o; reflexivity. Qed.

(** A flush that returns has sent the whole plan and cleared the buffer. *)
Lemma dump_returned (w : World) (self : MessageBuffer) :
  lock self = false -> result (dump w self) = Returned ->
  buffer (dump w self) = empty_buffer /\
  attempts (trace (dump w self)) = plan self.
Proof.
  intros Hlock Hret.
  destruct (dump_cases w self Hlock)
    as [(w' & tr & Hd & Hplan & _)
       |(w' & e & pre & c & text & post & tr0 & Hd & _)];
    rewrite Hd in *; cbn [result buffer trace] in *; [|discriminate Hret].
  split; [reflexivity|].
  rewrite attempts_app, Hplan. cbn. apply app_nil_r.
Qed.

(** C3: record calls that keep the counter below the threshold call
    [send_message] not once; the record call whose increment brings the
    counter to the threshold or beyond runs the flush itself, before it
    returns: its events, its outcome and the buffer it leaves are those of
    [dump] on the buffer with the new lines. *)
Theorem record_flushes_at_threshold (w : World) (self : MessageBuffer) :
  lock self = false ->
  (forall ops,
     forallb is_record ops = true ->
     current_size self + Z.of_nat (List.length ops) < BUFFER_SIZE ->
     let r := run_from (start w self) ops in
     trace r = flat_map recorded ops /\
     attempts (trace r) = [] /\
     world r = w /\
     result r = Returned) /\
  (forall o,
     is_record o = true ->
     let r := step w self o in
     (current_size self + 1 < BUFFER_SIZE ->
      trace r = recorded o /\ attempts (trace r) = [] /\
      result r = Returned) /\
     (BUFFER_SIZE <= current_size self + 1 ->
      let f := dump w (before_flush self o) in
      trace r = recorded o ++ trace f /\
      result r = result f /\
      buffer r = buffer f /\
      world r = world f /\
      (result r = Returned ->
       buffer r = empty_buffer /\
       attempts (trace r) = plan (before_flush self o)))).
Proof.
  intros Hlock. split.
  - intros ops Hrec Hlt r. subst r.
    destruct (run_below ops (start w self) Hlock Hrec Hlt)
      as (Htr & Hw & Hres & _ & _).
    cbn [start trace world result app] in *.
    rewrite Htr. repeat split; auto using attempts_recorded.
  - intros o Hrec r. subst r. split.
    + intros Hlt. rewrite (step_below w self o Hlock Hrec Hlt).
      cbn [trace result]. auto using attempts_recorded_one.
    + intros Hge f. rewrite (step_reached w self o Hlock Hrec Hge).
      fold f. cbn [trace result buffer world].
      do 4 (split; [reflexivity|]).
      intros Hret.
      destruct (dump_returned w (before_flush self o)
                  (before_flush_unlocked self o Hlock) Hret) as [Hb Ha].
      fold f in Hb, Ha. split; [exact Hb|].
      now rewrite attempts_app, attempts_recorded_one, Ha.
Qed.


(** C7, as amended: constructing a [MessageBuffer] never fails and does
    not look at the threshold: for every threshold, the non-positive ones
    included, it gives an empty, unlocked buffer with counter 0.  With a
    non-positive threshold every record call on that buffer flushes before
    it returns. *)
Theorem init_ignores_threshold :
  init = Constructed empty_buffer /\
  (BUFFER_SIZE <= 0 ->
   forall w ops o, is_record o = true ->
     let r := run_fresh w ops in
     let f := dump (world r) (before_flush (buffer r) o) in
     let r' := step (world r) (buffer r) o in
     trace r' = recorded o ++ trace f /\
     result r' = result f /\ buffer r' = buffer f /\ world r' = world f).
Proof.
  split; [reflexivity|].
  intros Hle w ops o Hrec r f r'. subst f r'.
  pose proof (consistent_run_fresh w ops) as Hc. fold r in Hc.
  pose proof (size_records _ _ Hc) as Hsize.
  rewrite (step_reached (world r) (buffer r) o (lock_free _ _ Hc) Hrec)
    by lia.
  cbn [trace result buffer world]. auto.
Qed.

End ThresholdFacts.

(** Threshold 3: two record calls on a
    new buffer send nothing, and the third one flushes before it returns. *)
Lemma record_flushes_at_threshold_witness :
  let E := env 3 send_ok in
  let r := two_pending 3 send_ok in
  let r' := step (world r) (buffer r) (hello 3 send_ok) in
  lock (buffer r) = false /\
  attempts (trace r) = [] /\
  result r' = Returned /\
  buffer r' = empty_buffer /\
  attempts (trace r') = plan (before_flush (buffer r) (hello 3 send_ok)).
Proof.
  intros E r r'. split; [reflexivity|]. split.
  - destruct (@record_flushes_at_threshold E 0%nat empty_buffer eq_refl)
      as [Hseq _].
    apply (Hseq [hello 3 send_ok; closed 3 send_ok]).
    + reflexivity.
    + vm_compute. reflexivity.
  - destruct (@record_flushes_at_threshold E (world r) (buffer r) eq_refl)
      as [_ Hcall].
    destruct (Hcall (hello 3 send_ok) eq_refl) as [_ Hflush].
    destruct Hflush as (_ & Hres & _ & _ & Hdone).
    + vm_compute. discriminate.
    + split; [reflexivity|]. apply Hdone. reflexivity.
Defined.

(** Threshold 0 and a transport that raises for destination 0: the
    first record call on the new buffer flushes and fails, one event stays
    pending, and the second record call flushes again. *)
Lemma init_ignores_threshold_witness :
  let E := env 0 send_raising in
  let o := hello 0 send_raising in
  let r := run_fresh 0%nat [o] in
  let f := dump (world r) (before_flush (buffer r) o) in
  let r' := step (world r) (buffer r) o in
  BUFFER_SIZE <= 0 /\
  init = Constructed empty_buffer /\
  current_size (buffer r) = 1 /\
  trace r' = recorded o ++ trace f /\
  result r' = result f /\ buffer r' = buffer f /\ world r' = world f.
Proof.
  intros E o r f r'.
  split; [vm_compute; discriminate|].
  split; [apply (@init_ignores_threshold E)|].
  split; [reflexivity|].
  apply (proj2 (@init_ignores_threshold E)).
  - vm_compute. discriminate.
  - reflexivity.
Defined.

(** C7, as stated, fails: with the threshold configured as 0 the
    constructor returns a buffer, raises nothing, and the buffer takes a
    record call, which sends its lines at once and returns. *)
Lemma init_accepts_zero_threshold :
  let E := env 0 send_ok in
  let r := step 0%nat empty_buffer (hello 0 send_ok) in
  BUFFER_SIZE <= 0 /\
  init = Constructed empty_buffer /\
  ~ (exists e, init = ConstructionRaised e) /\
  result r = Returned /\
  List.length (attempts (trace r)) = 1%nat.
Proof.
  intros E r.
  split; [vm_compute; discriminate|].
  split; [reflexivity|].
  split; [intros [e He]; discriminate He|].
  split; reflexivity.
Qed.

(* ================================================================== *)
(** ** Order of the lines in a flush *)

Section OrderFacts.
Context {E : Env}.

Lemma batches_send_batches (d c : TextChannel) (l : list string) :
  forall w,
  match send_batches w c l with
  | (_, tr, None) => batches_to d tr = if TextChannel_eq_dec d c then l else []
  | (_, _, Some _) => True
  end.
Proof.
  induction l as [|text rest IH]; intros w; cbn [send_batches].
  - now destruct (TextChannel_eq_dec d c).
  - destruct (send_message w c text) as [w' [b|e]]; [|exact I].
    specialize (IH w').
    destruct (send_batches w' c rest) as [[w'' tr] [e|]]; [exact I|].
    change (batches_to d (EvSend c text (SendReturned b) :: tr))
      with ((if TextChannel_eq_dec d c then [text] else []) ++ batches_to d tr).
    rewrite IH. now destruct (TextChannel_eq_dec d c).
Qed.

(** With one entry per destination, the batches a complete pass over the
    dictionary sends to [d] are the groups of the entry of [d]. *)
Lemma batches_dump_items (d : TextChannel) (items : list (TextChannel * list string)) :
  NoDup (map fst items) ->
  forall w,
  match dump_items w items with
  | (_, tr, None) =>
      batches_to d tr =
      match lookup d items with
      | Some content_list => group_strings content_list
      | None => []
      end
  | (_, _, Some _) => True
  end.
Proof.
  induction items as [|[c content_list] rest IH]; intros Hnd w;
    cbn [dump_items]; [reflexivity|].
  cbn [map fst] in Hnd. inversion Hnd as [|? ? Hnotin Hnd']; subst.
  pose proof (batches_send_batches d c (group_strings content_list) w)
    as Hs.
  destruct (send_batches w c (group_strings content_list))
    as [[w' tr] [e|]]; [exact I|].
  specialize (IH Hnd' w').
  destruct (dump_items w' rest) as [[w'' tr'] [e|]]; [exact I|].
  rewrite batches_to_app, Hs, IH. cbn [lookup].
  destruct (TextChannel_eq_dec d c) as [->|Hne]; [|reflexivity].
  rewrite (lookup_absent c rest Hnotin). apply app_nil_r.
Qed.

Lemma dump_batches (w : World) (self : MessageBuffer) (d : TextChannel) :
  lock self = false ->
  NoDup (map fst (message_buffer self)) ->
  result (dump w self) = Returned ->
  batches_to d (trace (dump w self)) = batches_of d self.
Proof.
  intros Hlock Hnd. unfold dump, batches_of. rewrite Hlock.
  pose proof (batches_dump_items d (message_buffer self) Hnd w) as Hb.
  destruct (dump_items w (message_buffer self)) as [[w' tr] [e|]];
    cbn [result trace]; [discriminate|].
  intros _. rewrite batches_to_app, Hb. apply app_nil_r.
Qed.

Lemma dump_cleared_returned (w : World) (self : MessageBuffer) :
  lock self = false ->
  existsb is_clear (trace (dump w self)) = true ->
  result (dump w self) = Returned.
Proof.
  intros Hlock Hclear.
  destruct (dump_shape w self Hlock)
    as [(tr' & _ & _ & _ & Hret) | (e & Hs & _ & _)]; [exact Hret|].
  rewrite (existsb_is_clear_sends _ Hs) in Hclear. discriminate Hclear.
Qed.

Lemma existsb_is_clear_recorded (o : op) :
  existsb is_clear (recorded o) = false.
Proof. destruct o; reflexivity. Qed.

Lemma batches_to_recorded (d : TextChannel) (o : op) :
  batches_to d (recorded o) = [].
Proof. destruct o; reflexivity. Qed.

(** A call whose events include the clearing has run a complete flush of
    the buffer it built. *)
Lemma step_flush (w : World) (self : MessageBuffer) (o : op) :
  lock self = false ->
  existsb is_clear (trace (step w self o)) = true ->
  trace (step w self o) = recorded o ++ trace (dump w (before_flush self o))
  /\ result (dump w (before_flush self o)) = Returned.
Proof.
  intros Hlock Hclear.
  destruct (is_record o) eqn:Hrec.
  - destruct (Z.lt_ge_cases (current_size self + 1) BUFFER_SIZE)
      as [Hlt|Hge].
    + rewrite (step_below w self o Hlock Hrec Hlt) in Hclear.
      cbn [trace] in Hclear.
      rewrite existsb_is_clear_recorded in Hclear. discriminate Hclear.
    + rewrite (step_reached w self o Hlock Hrec Hge) in *.
      cbn [trace] in *. split; [reflexivity|].
      rewrite existsb_app, existsb_is_clear_recorded in Hclear.
      apply dump_cleared_returned;
        [now apply before_flush_unlocked | exact Hclear].
  - destruct o; try discriminate Hrec.
    cbn [step recorded before_flush app] in *.
    split; [reflexivity | now apply dump_cleared_returned].
Qed.

Lemma consistent_before_flush (tr : list event) (self : MessageBuffer)
      (o : op) :
  consistent tr self -> consistent (tr ++ recorded o) (before_flush self o).
Proof.
  intros Hc. destruct o; cbn [recorded before_flush].
  - now apply consistent_appended.
  - now apply consistent_appended.
  - now rewrite app_nil_r.
Qed.

(** C5: take any call that completes a flush, on a buffer used from its
    construction on, and any destination [d].  The entry of [d] that is
    flushed holds the lines recorded for [d] since the last clearing, in
    recording order; the batches sent to [d], in sending order, are the
    groups of that entry; and when the grouping keeps the lines of that
    entry in order ([lines_of] reading the lines of a batch back), the
    batches put end to end are exactly those lines, in that order. *)
Theorem flush_preserves_order (lines_of : string -> list string)
        (w : World) (ops : list op) (o : op) (d : TextChannel) :
  let r := run_fresh w ops in
  let r' := step (world r) (buffer r) o in
  let pending := lines_since_clear d (trace r ++ recorded o) in
  existsb is_clear (trace r') = true ->
  List.concat (map lines_of (group_strings pending)) = pending ->
  entry d (before_flush (buffer r) o) = pending /\
  batches_to d (trace r') = batches_of d (before_flush (buffer r) o) /\
  List.concat (map lines_of (batches_to d (trace r'))) = pending.
Proof.
  intros r r' pending Hclear Hgroup.
  pose proof (consistent_run_fresh w ops) as Hc. fold r in Hc.
  pose proof (consistent_before_flush _ _ o Hc) as Hc'.
  destruct (step_flush (world r) (buffer r) o (lock_free _ _ Hc) Hclear)
    as [Htr Hret].
  fold r' in Htr.
  pose proof (entry_lines _ _ Hc' d) as Hentry. fold pending in Hentry.
  assert (Hb : batches_to d (trace r') =
               batches_of d (before_flush (buffer r) o)).
  { rewrite Htr, batches_to_app, batches_to_recorded.
    apply dump_batches;
      [apply (lock_free _ _ Hc') | apply (keys_unique _ _ Hc') | exact Hret]. }
  split; [exact Hentry | split; [exact Hb|]].
  rewrite Hb. unfold batches_of. unfold entry in Hentry.
  destruct (lookup d (message_buffer (before_flush (buffer r) o)))
    as [content_list|].
  - rewrite Hentry. exact Hgroup.
  - rewrite <- Hentry. reflexivity.
Qed.

End OrderFacts.

(** Threshold 3: after two record calls for
    destinations 0 and 1, a second message for destination 0 completes a
    flush; destination 0 gets two batches, which joined are its four
    lines in recording order. *)
Lemma flush_preserves_order_witness :
  let E := env 3 send_ok in
  let r := two_pending 3 send_ok in
  let o := @LogMessage E 0%nat (chat E 2%nat [] "yo") in
  let r' := step (world r) (buffer r) o in
  existsb is_clear (trace r') = true /\
  List.length (batches_to 0%nat (trace r')) = 2%nat /\
  List.concat (map lines_of_batch (batches_to 0%nat (trace r'))) =
    ["[2021-03-04 05:06:07] #voice-42 al\_ice#0001"; "> hi";
     "[2021-03-04 05:06:07] #voice-42 al\_ice#0001"; "> yo"].
Proof.
  intros E r o r'.
  split; [reflexivity | split; [reflexivity|]].
  apply (@flush_preserves_order E lines_of_batch 0%nat
           [hello 3 send_ok; closed 3 send_ok] o 0%nat).
  - vm_compute. reflexivity.
  - vm_compute. reflexivity.
Defined.

(* ================================================================== *)
(** ** Further properties of [get_id] *)

Module ObjUtilsMore.
Import ObjUtils ObjUtilsFacts.

(** The identifiers repeat with the clock: [get_id] only sees the last
    eight digits of the UNIX time, so moving the clock by a multiple of
    100000000 seconds gives the same identifier. *)
Theorem get_id_periodic (now k t c : Z) :
  get_id (now + k * 100000000) t c = get_id now t c.
Proof.
  rewrite !get_id_formula. now rewrite Z_mod_plus_full.
Qed.

(** Within the ranges of the layout, identifiers are distinct: equal
    identifiers come from the same last eight digits of the clock, the
    same type identifier and the same counter. *)
Theorem get_id_injective (now now' t t' c c' : Z) :
  0 <= t <= 9 -> 0 <= t' <= 9 ->
  0 <= c + 1 <= 9999 -> 0 <= c' + 1 <= 9999 ->
  get_id now t c = get_id now' t' c' ->
  now mod 100000000 = now' mod 100000000 /\ t = t' /\ c = c'.
Proof.
  intros Ht Ht' Hc Hc' Heq.
  destruct (get_id_decodes now t c Ht Hc) as (Hd & Hty & Hn & _).
  destruct (get_id_decodes now' t' c' Ht' Hc') as (Hd' & Hty' & Hn' & _).
  rewrite Heq in Hd, Hty, Hn.
  repeat split; [congruence | congruence | lia].
Qed.

Lemma get_id_injective_witness :
  (0 <= 3 <= 9) /\ (0 <= 7 + 1 <= 9999) /\
  get_id 12345678 3 7 = get_id 1712345678 3 7 /\
  12345678 mod 100000000 = 1712345678 mod 100000000.
Proof.
  split; [lia | split; [lia | split; [reflexivity|]]].
  apply (get_id_injective 12345678 1712345678 3 3 7 7);
    first [lia | reflexivity].
Defined.

(** At counter 9999 the count field overflows: the identifier is the one
    of the next type identifier with count 0, and for a type identifier
    up to 8 it reads back as type [t + 1] with counter 0. *)
Theorem get_id_counter_overflow (now t : Z) :
  get_id now t 9999 = get_id now (t + 1) (-1) /\
  (0 <= t <= 8 ->
   id_type (get_id now t 9999) = t + 1 /\
   id_counter (get_id now t 9999) = 0).
Proof.
  assert (Heq : get_id now t 9999 = get_id now (t + 1) (-1)).
  { rewrite !get_id_formula.
    replace (t * (now mod 100000000) * (9999 + 1))
      with (t * (now mod 100000000) * 1000 * 10) by lia.
    rewrite Z.mod_mul by lia.
    replace ((t + 1) * (now mod 100000000) * (-1 + 1)) with 0 by lia.
    rewrite Z.mod_0_l by lia. lia. }
  split; [exact Heq|].
  intros Ht. rewrite Heq.
  destruct (get_id_decodes now (t + 1) (-1)) as (_ & Hty & Hn & _);
    [lia | lia |].
  split; [exact Hty | exact Hn].
Qed.

Lemma get_id_counter_overflow_witness :
  (0 <= 4 <= 8) /\
  id_type (get_id 1712345678 4 9999) = 5 /\
  id_counter (get_id 1712345678 4 9999) = 0.
Proof.
  split; [lia|].
  apply (proj2 (get_id_counter_overflow 1712345678 4)). lia.
Defined.

(** Within the ranges of the layout an identifier has at most fourteen
    decimal digits. *)
Theorem get_id_bounds (now t c : Z) :
  0 <= t <= 9 -> 0 <= c + 1 <= 9999 ->
  0 <= get_id now t c < 100000000000000.
Proof.
  intros Ht Hc. rewrite get_id_formula.
  pose proof (date_range now) as Hd.
  pose proof (Z.mod_pos_bound (t * (now mod 100000000) * (c + 1)) 10
                ltac:(lia)) as Hk.
  lia.
Qed.

Lemma get_id_bounds_witness :
  (0 <= 9 <= 9) /\ (0 <= 9998 + 1 <= 9999) /\
  0 <= get_id 99999999 9 9998 < 100000000000000.
Proof.
  split; [lia | split; [lia|]].
  apply (get_id_bounds 99999999 9 9998); lia.
Defined.

(** The check digit of an identifier can be verified from the identifier
    alone: it is the product of the three fields read back, modulo 10. *)
Theorem get_id_check_digit (now t c : Z) :
  0 <= t <= 9 -> 0 <= c + 1 <= 9999 ->
  let id := get_id now t c in
  id_check id = (id_type id * id_timestamp id * id_counter id) mod 10.
Proof.
  intros Ht Hc id. subst id.
  destruct (get_id_decodes now t c Ht Hc) as (Hd & Hty & Hn & Hk).
  now rewrite Hk, Hd, Hty, Hn.
Qed.

Lemma get_id_check_digit_witness :
  (0 <= 7 <= 9) /\ (0 <= 41 + 1 <= 9999) /\
  id_check 12345678700422 = (7 * 12345678 * 42) mod 10.
Proof.
  split; [lia | split; [lia|]].
  apply (get_id_check_digit 1712345678 7 41); lia.
Defined.

End ObjUtilsMore.

(* ================================================================== *)
(** ** Properties of [match_param] and of the enforcing wrapper *)

Module ParamUtilsFacts.
Import ParamUtils.

Section MatchParamFacts.
Variable PyFloat : Type.
Variable int_of_str : string -> option Z.
Variable float_of_str : string -> option PyFloat.
Variable strtobool : string -> option Z.

Lemma timedelta_of_days_inl (n : Z) (td : timedelta) :
  timedelta_of_days n = inl td ->
  td = {| days := n; seconds := 0; microseconds := 0 |} /\
  Z.abs n <= 999999999.
Proof.
  unfold timedelta_of_days.
  destruct (Z.leb_spec (Z.abs n) 999999999) as [Hle|Hgt];
    intros Heq; inversion Heq; auto.
Qed.

(** Whenever [match_param] returns, the second value has the type of the
    original parameter (a boolean stays a boolean and is not read as an
    integer), the first value is one YAML stores as a scalar, and the two
    are the same value except for a [timedelta] original, where the first
    is the integer read and the second the [timedelta] of that many
    days. *)
Theorem match_param_preserves_type (original : param PyFloat)
        (new_param : string) (y v : param PyFloat) :
  match_param PyFloat int_of_str float_of_str strtobool original new_param
  = inl (y, v) ->
  same_type PyFloat v original = true /\
  yaml_friendly PyFloat y = true /\
  ((forall d, original <> PTimedelta d) -> y = v) /\
  (forall d, original = PTimedelta d ->
     exists n, int_of_str new_param = Some n /\ y = PInt n /\
               v = PTimedelta {| days := n; seconds := 0; microseconds := 0 |}
               /\ Z.abs n <= 999999999).
Proof.
  intros H. destruct original as [s | b | z | f | d |]; cbn [match_param] in H.
  - inversion H; subst. repeat split; auto. intros d Hd; discriminate Hd.
  - destruct (strtobool new_param); inversion H; subst.
    repeat split; auto. intros d Hd; discriminate Hd.
  - destruct (int_of_str new_param); inversion H; subst.
    repeat split; auto. intros d Hd; discriminate Hd.
  - destruct (float_of_str new_param); inversion H; subst.
    repeat split; auto. intros d Hd; discriminate Hd.
  - destruct (int_of_str new_param) as [n|]; [|discriminate H].
    destruct (timedelta_of_days n) as [td|e] eqn:Htd; inversion H; subst.
    apply timedelta_of_days_inl in Htd as [-> Hn].
    repeat split; auto.
    + intros Hno. exfalso. apply (Hno d). reflexivity.
    + intros d' _. exists n. auto.
  - discriminate H.
Qed.

End MatchParamFacts.

(** A [timedelta] original and the text "90": the integer 90 and the
    [timedelta] of 90 days. *)
Lemma match_param_preserves_type_witness :
  let original :=
    @PTimedelta unit {| days := 0; seconds := 30; microseconds := 0 |} in
  let ninety := {| days := 90; seconds := 0; microseconds := 0 |} in
  match_param unit Scenarios.int_of_digits (fun _ => None)
              Scenarios.strtobool_yes_no original "90"
  = inl (PInt 90, PTimedelta ninety) /\
  same_type unit (PTimedelta ninety) original = true /\
  yaml_friendly unit (PInt 90) = true.
Proof.
  intros original ninety. split; [reflexivity|].
  destruct (match_param_preserves_type unit Scenarios.int_of_digits
              (fun _ => None) Scenarios.strtobool_yes_no
              original "90" (PInt 90) (PTimedelta ninety) eq_refl)
    as (Hsame & Hyaml & _).
  split; [exact Hsame | exact Hyaml].
Defined.

Section WrapperFacts.
Variables (Value Annotation : Type).
Variable check_type : string -> Value -> Annotation -> option string.
Variable function : list Value -> list (string * Value) -> Value + raised.

Local Abbreviation checks := (checks Value Annotation check_type).
Local Abbreviation wrapper := (wrapper Value Annotation check_type function).
Local Abbreviation check_positional := (check_positional Value Annotation check_type).
Local Abbreviation check_keywords := (check_keywords Value Annotation check_type).

(** A pair that fails its check makes the positional loop raise. *)
Lemma check_positional_fails
      (pairs : list ((string * Annotation) * Value))
      (n : string) (a : Annotation) (v : Value) (msg : string) :
  In ((n, a), v) pairs -> check_type n v a = Some msg ->
  check_positional pairs <> None.
Proof.
  induction pairs as [|[[n' a'] v'] rest IH]; intros Hin Hfail; [destruct Hin|].
  cbn [ParamUtils.check_positional].
  destruct (check_type n' v' a') as [msg'|] eqn:Hc; [discriminate|].
  destruct Hin as [Heq|Hin]; [|now apply IH].
  inversion Heq; subst. congruence.
Qed.

Lemma check_positional_passes
      (pairs : list ((string * Annotation) * Value)) :
  check_positional pairs = None ->
  forall n a v, In ((n, a), v) pairs -> check_type n v a = None.
Proof.
  induction pairs as [|[[n' a'] v'] rest IH]; intros Hnone n a v Hin;
    [destruct Hin|].
  cbn [ParamUtils.check_positional] in Hnone.
  destruct (check_type n' v' a') as [msg'|] eqn:Hc; [discriminate Hnone|].
  destruct Hin as [Heq|Hin]; [|now apply IH].
  inversion Heq; subst. exact Hc.
Qed.

Lemma check_keywords_passes (kw : list (string * Annotation))
      (kwargs : list (string * Value)) :
  check_keywords kw kwargs = None ->
  forall k v, In (k, v) kwargs ->
    exists a, dict_get Annotation kw k = Some a /\ check_type k v a = None.
Proof.
  induction kwargs as [|[k' v'] rest IH]; intros Hnone k v Hin;
    [destruct Hin|].
  cbn [ParamUtils.check_keywords] in Hnone.
  destruct (dict_get Annotation kw k') as [a'|] eqn:Hget;
    [|discriminate Hnone].
  destruct (check_type k' v' a') as [msg'|] eqn:Hc; [discriminate Hnone|].
  destruct Hin as [Heq|Hin]; [|now apply IH].
  inversion Heq; subst. exists a'. auto.
Qed.

(** The argument of index [i >= 1] and its parameter are among the pairs
    the positional loop checks. *)
Lemma checked_pair (A B : Type) (l : list A) (l' : list B) (i : nat)
      (p : A) (v : B) :
  (1 <= i)%nat -> nth_error l i = Some p -> nth_error l' i = Some v ->
  In (p, v) (skipn 1 (combine l l')).
Proof.
  intros Hi Hp Hv.
  destruct i as [|j]; [lia|].
  destruct l as [|p0 l]; [discriminate Hp|].
  destruct l' as [|v0 l']; [discriminate Hv|].
  cbn [combine skipn nth_error] in *.
  clear Hi p0 v0. revert l l' Hp Hv.
  induction j as [|j IH]; intros [|p1 l] [|v1 l'] Hp Hv;
    try discriminate; cbn [nth_error combine] in *.
  - inversion Hp; inversion Hv; subst. now left.
  - right. now apply IH.
Qed.

Lemma dict_get_absent (d : list (string * Annotation)) (k : string) :
  (forall a, ~ In (k, a) d) -> dict_get Annotation d k = None.
Proof.
  induction d as [|[n a] rest IH]; intros Hno; [reflexivity|].
  cbn [dict_get]. rewrite IH.
  - destruct (String.eqb_spec n k) as [->|]; [|reflexivity].
    exfalso. apply (Hno a). now left.
  - intros a' Hin. apply (Hno a'). now right.
Qed.

Lemma keyword_params_absent (sig : list (SigParameter Annotation))
      (k : string) :
  (forall p, In p sig -> is_keyword Annotation p = true -> p_name p <> k) ->
  dict_get Annotation (keyword_params Annotation sig) k = None.
Proof.
  intros Hno. apply dict_get_absent. intros a Hin.
  unfold keyword_params in Hin. apply in_map_iff in Hin as (p & Heq & Hp).
  apply filter_In in Hp as [Hp Hkw]. inversion Heq; subst.
  exact (Hno p Hp Hkw eq_refl).
Qed.

Lemma check_keywords_unknown (kw : list (string * Annotation))
      (kwargs : list (string * Value)) (k : string) (v : Value) :
  In (k, v) kwargs -> dict_get Annotation kw k = None ->
  check_keywords kw kwargs <> None.
Proof.
  induction kwargs as [|[k' v'] rest IH]; intros Hin Hget; [destruct Hin|].
  cbn [ParamUtils.check_keywords].
  destruct (dict_get Annotation kw k') as [a'|] eqn:Hget'; [|discriminate].
  destruct (check_type k' v' a') as [msg'|]; [discriminate|].
  destruct Hin as [Heq|Hin]; [|now apply IH].
  inversion Heq; subst. congruence.
Qed.

Lemma check_keywords_fails (kw : list (string * Annotation))
      (kwargs : list (string * Value)) (k : string) (v : Value)
      (a : Annotation) (msg : string) :
  In (k, v) kwargs -> dict_get Annotation kw k = Some a ->
  check_type k v a = Some msg ->
  check_keywords kw kwargs <> None.
Proof.
  induction kwargs as [|[k' v'] rest IH]; intros Hin Hget Hc; [destruct Hin|].
  cbn [ParamUtils.check_keywords].
  destruct (dict_get Annotation kw k') as [a'|] eqn:Hget'; [|discriminate].
  destruct (check_type k' v' a') as [msg'|] eqn:Hc'; [discriminate|].
  destruct Hin as [Heq|Hin]; [|now apply (IH Hin Hget Hc)].
  inversion Heq; subst. congruence.
Qed.

(** When the loops raise, the wrapper raises [EnforceParamError] and has
    not called the function. *)
Lemma wrapper_rejects (sig : list (SigParameter Annotation))
      (args : list Value) (kwargs : list (string * Value)) :
  checks sig args kwargs <> None ->
  called (wrapper sig args kwargs) = false /\
  exists cause,
    outcome (wrapper sig args kwargs) = EnforceParamError cause.
Proof.
  intros Hne. unfold ParamUtils.wrapper.
  destruct (checks sig args kwargs) as [e|]; [|congruence].
  split; [reflexivity | now exists e].
Qed.

(** The first positional argument is never checked: replacing it changes
    nothing in what the two loops do. *)
Theorem first_argument_unchecked (sig : list (SigParameter Annotation))
        (a0 a0' : Value) (args : list Value)
        (kwargs : list (string * Value)) :
  checks sig (a0 :: args) kwargs = checks sig (a0' :: args) kwargs /\
  called (wrapper sig (a0 :: args) kwargs) =
  called (wrapper sig (a0' :: args) kwargs).
Proof.
  assert (Hsame : checks sig (a0 :: args) kwargs
                  = checks sig (a0' :: args) kwargs).
  { unfold ParamUtils.checks.
    destruct (pos_params Annotation sig) as [|p ps]; reflexivity. }
  split; [exact Hsame|].
  unfold ParamUtils.wrapper. rewrite Hsame.
  destruct (checks sig (a0' :: args) kwargs); [reflexivity|].
  destruct (function (a0 :: args) kwargs) as [?|[?|?|?]];
    destruct (function (a0' :: args) kwargs) as [?|[?|?|?]]; reflexivity.
Qed.

(** Positional arguments beyond the positional parameters of the
    signature (those a [*args] parameter takes) are never checked. *)
Theorem surplus_arguments_unchecked (sig : list (SigParameter Annotation))
        (args : list Value) (kwargs : list (string * Value)) :
  checks sig args kwargs =
  checks sig
         (firstn (List.length (pos_params Annotation sig)) args) kwargs.
Proof.
  unfold ParamUtils.checks. now rewrite <- combine_firstn_l.
Qed.

(** When the wrapper returns, the function was called and returned, every
    positional argument of index 1 and above that has a positional
    parameter passed its check against that parameter's annotation, and
    every keyword argument names a parameter that can be given by keyword
    and passed its check. *)
Theorem wrapper_returns_checked (sig : list (SigParameter Annotation))
        (args : list Value) (kwargs : list (string * Value)) :
  outcome (wrapper sig args kwargs) = ReturnedNone ->
  called (wrapper sig args kwargs) = true /\
  (exists v, function args kwargs = inl v) /\
  (forall i n a v, (1 <= i)%nat ->
     nth_error (pos_params Annotation sig) i = Some (n, a) ->
     nth_error args i = Some v -> check_type n v a = None) /\
  (forall k v, In (k, v) kwargs ->
     exists a, dict_get Annotation (keyword_params Annotation sig) k = Some a
               /\ check_type k v a = None).
Proof.
  unfold ParamUtils.wrapper, ParamUtils.checks.
  destruct (check_positional
              (skipn 1 (combine (pos_params Annotation sig) args)))
    as [e|] eqn:Hpos; [discriminate|].
  destruct (check_keywords (keyword_params Annotation sig) kwargs)
    as [e|] eqn:Hkw; [discriminate|].
  destruct (function args kwargs) as [v|[msg|key|name]] eqn:Hf;
    cbn [outcome called]; try discriminate.
  intros _. split; [reflexivity|]. split; [now exists v|]. split.
  - intros i n a v' Hi Hp Hv.
    apply (check_positional_passes _ Hpos).
    now apply (checked_pair _ _ _ _ i).
  - now apply check_keywords_passes.
Qed.

(** A keyword argument whose name is not that of a parameter that can be
    given by keyword (a positional-only name, or any name when the
    function only has [**kwargs]) makes the wrapper raise
    [EnforceParamError] without calling the function. *)
Theorem wrapper_rejects_unknown_keyword
        (sig : list (SigParameter Annotation))
        (args : list Value) (kwargs : list (string * Value))
        (k : string) (v : Value) :
  In (k, v) kwargs ->
  (forall p, In p sig -> is_keyword Annotation p = true -> p_name p <> k) ->
  called (wrapper sig args kwargs) = false /\
  exists cause,
    outcome (wrapper sig args kwargs) = EnforceParamError cause.
Proof.
  intros Hin Hno. apply wrapper_rejects.
  unfold ParamUtils.checks.
  destruct (check_positional
              (skipn 1 (combine (pos_params Annotation sig) args)));
    [discriminate|].
  apply (check_keywords_unknown _ _ k v Hin).
  now apply keyword_params_absent.
Qed.

(** An argument that fails its check, be it a positional argument of
    index 1 or above against its parameter or a keyword argument against
    the parameter it names, makes the wrapper raise [EnforceParamError]
    without calling the function. *)
Theorem wrapper_rejects_mismatch (sig : list (SigParameter Annotation))
        (args : list Value) (kwargs : list (string * Value)) :
  (exists i n a v msg, (1 <= i)%nat /\
     nth_error (pos_params Annotation sig) i = Some (n, a) /\
     nth_error args i = Some v /\ check_type n v a = Some msg)
  \/
  (exists k v a msg, In (k, v) kwargs /\
     dict_get Annotation (keyword_params Annotation sig) k = Some a /\
     check_type k v a = Some msg) ->
  called (wrapper sig args kwargs) = false /\
  exists cause,
    outcome (wrapper sig args kwargs) = EnforceParamError cause.
Proof.
  intros Hbad. apply wrapper_rejects. unfold ParamUtils.checks.
  destruct Hbad as [(i & n & a & v & msg & Hi & Hp & Hv & Hc)
                   |(k & v & a & msg & Hin & Hget & Hc)].
  - pose proof (check_positional_fails _ n a v msg
                  (checked_pair _ _ _ _ i _ _ Hi Hp Hv) Hc) as Hne.
    destruct (check_positional
                (skipn 1 (combine (pos_params Annotation sig) args)));
      [discriminate | congruence].
  - destruct (check_positional
                (skipn 1 (combine (pos_params Annotation sig) args)));
      [discriminate|].
    now apply (check_keywords_fails _ _ k v a msg).
Qed.

End WrapperFacts.

Lemma wrapper_returns_checked_witness :
  let args := [Scenarios.VStr "room"; Scenarios.VInt 5] in
  let kwargs := [("label", Scenarios.VStr "x")] in
  outcome (wrapper _ _ Scenarios.check_val Scenarios.set_limit
                   Scenarios.set_limit_sig args kwargs) = ReturnedNone /\
  called (wrapper _ _ Scenarios.check_val Scenarios.set_limit
                  Scenarios.set_limit_sig args kwargs) = true.
Proof.
  intros args kwargs. split; [reflexivity|].
  apply (wrapper_returns_checked _ _ Scenarios.check_val Scenarios.set_limit
           Scenarios.set_limit_sig args kwargs).
  reflexivity.
Defined.

Lemma wrapper_rejects_unknown_keyword_witness :
  let args := [Scenarios.VStr "room"; Scenarios.VInt 5] in
  let kwargs := [("colour", Scenarios.VStr "red")] in
  called (wrapper _ _ Scenarios.check_val Scenarios.set_limit
                  Scenarios.set_limit_sig args kwargs) = false /\
  exists cause,
    outcome (wrapper _ _ Scenarios.check_val Scenarios.set_limit
                     Scenarios.set_limit_sig args kwargs)
    = EnforceParamError cause.
Proof.
  intros args kwargs.
  apply (wrapper_rejects_unknown_keyword _ _ Scenarios.check_val
           Scenarios.set_limit Scenarios.set_limit_sig args kwargs
           "colour" (Scenarios.VStr "red")).
  - left. reflexivity.
  - intros p [<-|[<-|[<-|[]]]] Hk; cbn; discriminate.
Defined.

Lemma wrapper_rejects_mismatch_witness :
  let args := [Scenarios.VStr "room"; Scenarios.VStr "five"] in
  called (wrapper _ _ Scenarios.check_val Scenarios.set_limit
                  Scenarios.set_limit_sig args []) = false /\
  exists cause,
    outcome (wrapper _ _ Scenarios.check_val Scenarios.set_limit
                     Scenarios.set_limit_sig args [])
    = EnforceParamError cause.
Proof.
  intros args.
  apply (wrapper_rejects_mismatch _ _ Scenarios.check_val
           Scenarios.set_limit Scenarios.set_limit_sig args []).
  left. exists 1%nat, "limit", Scenarios.AInt, (Scenarios.VStr "five"), "limit".
  repeat split. lia.
Defined.

End ParamUtilsFacts.

(* ================================================================== *)
(** ** Whole runs of the buffer *)

Section WholeRuns.
Context {E : Env}.

(** What a call on an unlocked buffer does: a record call below the
    threshold appends; every other call flushes the buffer it built. *)
Lemma step_shape (w : World) (self : MessageBuffer) (o : op) :
  lock self = false ->
  (is_record o = true /\ current_size self + 1 < BUFFER_SIZE /\
   world (step w self o) = w /\
   buffer (step w self o) = before_flush self o /\
   trace (step w self o) = recorded o /\
   result (step w self o) = Returned)
  \/
  ((is_record o = true -> BUFFER_SIZE <= current_size self + 1) /\
   world (step w self o) = world (dump w (before_flush self o)) /\
   buffer (step w self o) = buffer (dump w (before_flush self o)) /\
   trace (step w self o) = recorded o ++ trace (dump w (before_flush self o)) /\
   result (step w self o) = result (dump w (before_flush self o))).
Proof.
  intros Hlock. destruct (is_record o) eqn:Hrec.
  - destruct (Z.lt_ge_cases (current_size self + 1) BUFFER_SIZE)
      as [Hlt|Hge].
    + left. rewrite (step_below w self o Hlock Hrec Hlt). auto 10.
    + right. rewrite (step_reached w self o Hlock Hrec Hge). auto 10.
  - right. destruct o; try discriminate Hrec.
    cbn [step before_flush recorded app]. repeat split. discriminate.
Qed.

Lemma before_flush_size (self : MessageBuffer) (o : op) :
  current_size (before_flush self o) =
  current_size self + (if is_record o then 1 else 0).
Proof. destruct o; cbn; lia. Qed.

Lemma lines_recorded_app (d : TextChannel) (t1 t2 : list event) :
  lines_recorded d (t1 ++ t2) = lines_recorded d t1 ++ lines_recorded d t2.
Proof. apply flat_map_app. Qed.

Lemma lines_recorded_sends (d : TextChannel) (tr : list event) :
  Forall is_send tr -> lines_recorded d tr = [].
Proof.
  induction 1 as [|ev tr Hev _ IH]; [reflexivity|].
  destruct ev; try contradiction. exact IH.
Qed.

Lemma entry_before_flush (d : TextChannel) (self : MessageBuffer) (o : op) :
  entry d (before_flush self o) =
  entry d self ++ lines_recorded d (recorded o).
Proof.
  destruct o; cbn [before_flush recorded lines_recorded flat_map].
  - rewrite entry_appended, app_nil_r. reflexivity.
  - rewrite entry_appended, app_nil_r. reflexivity.
  - now rewrite app_nil_r.
Qed.

Lemma raises_in_raised_flush (tr0 : list event) (c : TextChannel)
      (text : string) (e : exn) :
  existsb raises (tr0 ++ [EvSend c text (SendRaised e)]) = true.
Proof. rewrite existsb_app. cbn. apply orb_true_r. Qed.

(** A flush without a raising call has returned and cleared. *)
Lemma dump_without_raise (w : World) (self : MessageBuffer) :
  lock self = false ->
  existsb raises (trace (dump w self)) = false ->
  exists tr,
    Forall is_send tr /\
    trace (dump w self) = tr ++ [EvClear] /\
    buffer (dump w self) = empty_buffer /\
    result (dump w self) = Returned.
Proof.
  intros Hlock Hno.
  destruct (dump_cases w self Hlock)
    as [(w' & tr & Hd & _ & Hall)
       |(w' & e & pre & c & text & post & tr0 & Hd & _)];
    rewrite Hd in *; cbn [trace buffer result] in *.
  - exists tr. auto using returned_is_send.
  - rewrite raises_in_raised_flush in Hno. discriminate Hno.
Qed.


(** A property of trace and buffer that every call keeps holds along
    every run. *)
Lemma run_from_invariant (P : list event -> MessageBuffer -> Prop) :
  (forall tr w self o,
      P tr self -> P (tr ++ trace (step w self o)) (buffer (step w self o))) ->
  forall ops r,
    P (trace r) (buffer r) ->
    P (trace (run_from r ops)) (buffer (run_from r ops)).
Proof.
  intros Hstep ops. induction ops as [|o ops IH]; intros r Hr; [exact Hr|].
  cbn [run_from]. apply IH. cbn [trace buffer]. now apply Hstep.
Qed.

Lemma step_not_blocked (w : World) (self : MessageBuffer) (o : op) :
  lock self = false -> result (step w self o) <> Blocked.
Proof.
  intros Hlock.
  destruct (step_shape w self o Hlock)
    as [(_ & _ & _ & _ & _ & ->) | (_ & _ & _ & _ & ->)]; [discriminate|].
  destruct (dump_shape w (before_flush self o)
              (before_flush_unlocked self o Hlock))
    as [(tr & _ & _ & _ & ->) | (e & _ & _ & ->)]; discriminate.
Qed.

(** On a buffer used from its construction on by calls made one after the
    other, no call ever waits for the lock, and every call leaves the lock
    free, also when [send_message] raises in the middle of a flush: a
    record call releases the lock before it calls [dump]. *)
Theorem calls_never_block (w : World) (ops : list op) (o : op) :
  let r := run_fresh w ops in
  lock (buffer r) = false /\
  result (step (world r) (buffer r) o) <> Blocked /\
  lock (buffer (step (world r) (buffer r) o)) = false.
Proof.
  intros r.
  pose proof (consistent_run_fresh w ops) as Hc. fold r in Hc.
  pose proof (consistent_step _ (world r) _ o Hc) as Hc'.
  split; [apply (lock_free _ _ Hc)|].
  split; [apply step_not_blocked, (lock_free _ _ Hc)|].
  apply (lock_free _ _ Hc').
Qed.

(** After a flush that raised, the next flush starts from the first batch
    again: when it returns, it has sent once more every batch the failed
    flush had delivered, then the batch that failed, then the rest. *)
Theorem retry_resends (w w2 : World) (self : MessageBuffer) :
  lock self = false ->
  let f1 := dump w self in
  let f2 := dump w2 (buffer f1) in
  (exists e, result f1 = Raised e) ->
  result f2 = Returned ->
  exists pre c text post,
    attempts (trace f1) = pre ++ [(c, text)] /\
    existsb raises (removelast (trace f1)) = false /\
    attempts (trace f2) = pre ++ (c, text) :: post.
Proof.
  intros Hlock f1 f2 [e He] Hret. subst f1 f2.
  destruct (dump_cases w self Hlock)
    as [(w' & tr & Hd & _ & _)
       |(w' & e' & pre & c & text & post & tr0 & Hd & Hplan & Hatt & Hall)];
    rewrite Hd in *; cbn [trace buffer result] in *; [discriminate He|].
  exists pre, c, text, post.
  destruct (dump_returned w2 self Hlock Hret) as [_ Ha].
  rewrite attempts_app, Hatt, removelast_last, Ha, Hplan.
  repeat split. now apply returned_not_raises.
Qed.

(** Once the counter has reached the threshold, every record call
    attempts a flush of all that is pending; the flush stays due, and the
    lock free, until one flush returns, which empties the buffer. *)
Theorem due_flush_is_retried (w : World) (self : MessageBuffer) (o : op) :
  lock self = false ->
  is_record o = true ->
  BUFFER_SIZE <= current_size self ->
  let r := step w self o in
  trace r = recorded o ++ trace (dump w (before_flush self o)) /\
  (result r = Returned /\ buffer r = empty_buffer
   \/
   (exists e, result r = Raised e) /\
   buffer r = before_flush self o /\
   lock (buffer r) = false /\
   BUFFER_SIZE <= current_size (buffer r)).
Proof.
  intros Hlock Hrec Hdue r. subst r.
  rewrite (step_reached w self o Hlock Hrec) by lia.
  cbn [trace result buffer]. split; [reflexivity|].
  pose proof (before_flush_unlocked self o Hlock) as Hl.
  destruct (dump_shape w (before_flush self o) Hl)
    as [(tr & _ & _ & -> & ->) | (e & _ & -> & ->)].
  - left. auto.
  - right. split; [now exists e|]. split; [reflexivity|].
    split; [exact Hl|]. rewrite before_flush_size, Hrec. lia.
Qed.

(** A record call that stays below the threshold adds its lines at the
    end of the entry of its own destination, leaves every other entry as
    it was, and does not touch the transport. *)
Theorem record_extends_own_entry (w : World) (self : MessageBuffer)
        (o : op) (d : TextChannel) :
  lock self = false ->
  is_record o = true ->
  current_size self + 1 < BUFFER_SIZE ->
  let r := step w self o in
  entry d (buffer r) = entry d self ++ lines_recorded d (recorded o) /\
  world r = w.
Proof.
  intros Hlock Hrec Hlt r. subst r.
  rewrite (step_below w self o Hlock Hrec Hlt). cbn [buffer world].
  split; [apply entry_before_flush | reflexivity].
Qed.

End WholeRuns.

Section Conservation.
Context {E : Env}.

(** The lines the batches sent to [d] read back to, when the grouping
    keeps the lines of an entry made of lines that are [ok]. *)
Lemma batches_of_lines (lines_of : string -> list string)
      (ok : string -> bool) (self : MessageBuffer) (d : TextChannel) :
  (forall ls, forallb ok ls = true ->
              List.concat (map lines_of (group_strings ls)) = ls) ->
  forallb ok (entry d self) = true ->
  List.concat (map lines_of (batches_of d self)) = entry d self.
Proof.
  intros Hgroup. unfold batches_of, entry.
  destruct (lookup d (message_buffer self)); [apply Hgroup | reflexivity].
Qed.

Lemma sent_lines_app (lines_of : string -> list string) (d : TextChannel)
      (t1 t2 : list event) :
  List.concat (map lines_of (batches_to d (t1 ++ t2))) =
  List.concat (map lines_of (batches_to d t1)) ++
  List.concat (map lines_of (batches_to d t2)).
Proof. now rewrite batches_to_app, map_app, concat_app. Qed.

Lemma lines_recorded_flush (d : TextChannel) (tr : list event) :
  Forall is_send tr -> lines_recorded d (tr ++ [EvClear]) = [].
Proof.
  intros Hs. rewrite lines_recorded_app, (lines_recorded_sends d tr Hs).
  reflexivity.
Qed.

(** One call keeps the account of the lines of [d]: sent plus pending is
    recorded. *)
Lemma step_conserves (lines_of : string -> list string)
      (ok : string -> bool) (d : TextChannel)
      (tr : list event) (w : World) (self : MessageBuffer) (o : op) :
  (forall ls, forallb ok ls = true ->
              List.concat (map lines_of (group_strings ls)) = ls) ->
  consistent tr self ->
  List.concat (map lines_of (batches_to d tr)) ++ entry d self
  = lines_recorded d tr ->
  existsb raises (trace (step w self o)) = false ->
  forallb ok (lines_recorded d (tr ++ trace (step w self o))) = true ->
  List.concat (map lines_of (batches_to d (tr ++ trace (step w self o))))
  ++ entry d (buffer (step w self o))
  = lines_recorded d (tr ++ trace (step w self o)).
Proof.
  intros Hgroup Hc Hacc Hno Hok.
  pose proof (lock_free _ _ Hc) as Hlock.
  pose proof (consistent_before_flush _ _ o Hc) as Hc'.
  rewrite lines_recorded_app in Hok.
  rewrite sent_lines_app, lines_recorded_app, <- Hacc.
  rewrite <- Hacc, !forallb_app in Hok.
  apply andb_prop in Hok as [Hok Hok2].
  apply andb_prop in Hok as [_ Hok1].
  destruct (step_shape w self o Hlock)
    as [(_ & _ & _ & Hb & Ht & _) | (_ & _ & Hb & Ht & _)];
    rewrite Hb, Ht in *.
  - rewrite batches_to_recorded, entry_before_flush. cbn [map List.concat].
    now rewrite app_nil_r, app_assoc.
  - rewrite existsb_app in Hno. apply orb_false_elim in Hno as [_ Hno].
    destruct (dump_without_raise w _ (lock_free _ _ Hc') Hno)
      as (tr' & Hs & Htr & Hbuf & Hret).
    rewrite lines_recorded_app, forallb_app in Hok2.
    apply andb_prop in Hok2 as [Hok2 _].
    rewrite sent_lines_app, batches_to_recorded, lines_recorded_app.
    rewrite (dump_batches w _ d (lock_free _ _ Hc') (keys_unique _ _ Hc') Hret).
    rewrite (batches_of_lines lines_of ok _ d Hgroup), entry_before_flush
      by (rewrite entry_before_flush, forallb_app, Hok1, Hok2; reflexivity).
    rewrite Htr, (lines_recorded_flush d tr' Hs), Hbuf.
    cbn. now rewrite !app_nil_r, <- app_assoc.
Qed.

(** No line is lost, doubled or moved: on a buffer used from its
    construction on, as long as no call of [send_message] raises, the
    lines recorded for a destination are all [ok], and the grouping keeps
    the lines and the order of every list of [ok] lines ([lines_of]
    reading the lines of a batch back), the lines of all batches sent to
    the destination, followed by the lines still pending for it, are
    exactly the lines recorded for it, in recording order. *)
Theorem lines_conserved (lines_of : string -> list string)
        (ok : string -> bool)
        (w : World) (ops : list op) (d : TextChannel) :
  (forall ls, forallb ok ls = true ->
              List.concat (map lines_of (group_strings ls)) = ls) ->
  let r := run_fresh w ops in
  existsb raises (trace r) = false ->
  forallb ok (lines_recorded d (trace r)) = true ->
  List.concat (map lines_of (batches_to d (trace r))) ++ entry d (buffer r)
  = lines_recorded d (trace r).
Proof.
  intros Hgroup r Hno Hok. subst r.
  assert (Hinv : consistent (trace (run_fresh w ops))
                            (buffer (run_fresh w ops)) /\
                 (existsb raises (trace (run_fresh w ops)) = false ->
                  forallb ok (lines_recorded d (trace (run_fresh w ops)))
                  = true ->
                  List.concat
                    (map lines_of (batches_to d (trace (run_fresh w ops))))
                  ++ entry d (buffer (run_fresh w ops))
                  = lines_recorded d (trace (run_fresh w ops)))).
  { unfold run_fresh.
    apply (run_from_invariant
             (fun tr self =>
                consistent tr self /\
                (existsb raises tr = false ->
                 forallb ok (lines_recorded d tr) = true ->
                 List.concat (map lines_of (batches_to d tr)) ++ entry d self
                 = lines_recorded d tr))).
    - intros tr w' self o [Hc Hacc].
      split; [now apply consistent_step|].
      intros Hno' Hok'. rewrite existsb_app in Hno'.
      apply orb_false_elim in Hno' as [Hno1 Hno2].
      apply (step_conserves lines_of ok); auto.
      apply Hacc; [exact Hno1|].
      rewrite lines_recorded_app, forallb_app in Hok'.
      now apply andb_prop in Hok' as [Hok' _].
    - cbn [trace buffer]. split; [apply consistent_fresh | reflexivity]. }
  now apply Hinv.
Qed.






Lemma format_message_nonempty (m : Message) : format_message m <> [].
Proof.
  unfold format_message.
  destruct (attachments m); destruct (truthy (content m)); discriminate.
Qed.

Lemma setdefault_extend_nonempty (items : list (TextChannel * list string))
      (c : TextChannel) (lines : list string) :
  lines <> [] ->
  Forall (fun item => snd item <> []) items ->
  Forall (fun item => snd item <> []) (setdefault_extend items c lines).
Proof.
  intros Hl. induction 1 as [|[k v] rest Hk Hrest IH];
    cbn [setdefault_extend].
  - constructor; [exact Hl | constructor].
  - destruct (TextChannel_eq_dec c k).
    + constructor; [|exact Hrest]. cbn [snd] in *.
      destruct v; [exact Hl | discriminate].
    + constructor; assumption.
Qed.

Lemma before_flush_nonempty (self : MessageBuffer) (o : op) :
  entries_nonempty self -> entries_nonempty (before_flush self o).
Proof.
  unfold entries_nonempty. intros H.
  destruct o; cbn [before_flush appended message_buffer]; [| |exact H];
    apply setdefault_extend_nonempty;
    [apply format_message_nonempty | exact H | discriminate | exact H].
Qed.

(** On a buffer used from its construction on, a destination is in the
    dictionary only with at least one line: [dump] never hands an empty
    list to [group_strings]. *)
Theorem entries_never_empty (w : World) (ops : list op) :
  entries_nonempty (buffer (run_fresh w ops)).
Proof.
  assert (Hinv : lock (buffer (run_fresh w ops)) = false /\
                 entries_nonempty (buffer (run_fresh w ops))).
  { unfold run_fresh.
    apply (run_from_invariant
             (fun _ self => lock self = false /\ entries_nonempty self)).
    - intros _ w' self o [Hlock Hne].
      pose proof (before_flush_unlocked self o Hlock) as Hl.
      pose proof (before_flush_nonempty self o Hne) as Hn.
      destruct (step_shape w' self o Hlock)
        as [(_ & _ & _ & -> & _) | (_ & _ & -> & _)]; [auto|].
      destruct (dump_shape w' (before_flush self o) Hl)
        as [(tr & _ & _ & -> & _) | (e & _ & -> & _)]; [|auto].
      split; [reflexivity | constructor].
    - cbn [buffer]. split; [reflexivity | constructor]. }
  apply Hinv.
Qed.

End Conservation.

(** The transport raises at its second call: the first flush delivers the
    batch of destination 0 and fails on destination 1; the second flush
    sends the batch of destination 0 again. *)
Lemma retry_resends_witness :
  let E := env 3 Scenarios.send_flaky in
  let r := two_pending 3 Scenarios.send_flaky in
  let f1 := dump (world r) (buffer r) in
  let f2 := dump (world f1) (buffer f1) in
  lock (buffer r) = false /\
  result f1 = Raised "HTTPException" /\
  result f2 = Returned /\
  exists pre c text post,
    attempts (trace f1) = pre ++ [(c, text)] /\
    existsb raises (removelast (trace f1)) = false /\
    attempts (trace f2) = pre ++ (c, text) :: post.
Proof.
  intros E r f1 f2.
  split; [reflexivity | split; [reflexivity | split; [reflexivity|]]].
  apply (@retry_resends E (world r) (world f1) (buffer r)).
  - reflexivity.
  - exists "HTTPException". reflexivity.
  - reflexivity.
Defined.

(** Threshold 2 and a transport that raises for destination 0: the second
    record call fails to flush, and so does the third, with three events
    pending. *)
Lemma due_flush_is_retried_witness :
  let E := env 2 send_raising in
  let r := two_pending 2 send_raising in
  let r' := step (world r) (buffer r) (hello 2 send_raising) in
  lock (buffer r) = false /\
  BUFFER_SIZE <= current_size (buffer r) /\
  result r' = Raised "HTTPException" /\
  current_size (buffer r') = 3 /\
  trace r' = recorded (hello 2 send_raising)
             ++ trace (dump (world r)
                            (before_flush (buffer r) (hello 2 send_raising))).
Proof.
  intros E r r'.
  split; [reflexivity|].
  split; [vm_compute; discriminate|].
  split; [reflexivity | split; [reflexivity|]].
  apply (@due_flush_is_retried E (world r) (buffer r) (hello 2 send_raising)).
  - reflexivity.
  - reflexivity.
  - vm_compute. discriminate.
Defined.

(** Threshold 3: a second message for destination 0 goes behind the
    first. *)
Lemma record_extends_own_entry_witness :
  let E := env 3 send_ok in
  let r := run_fresh 0%nat [hello 3 send_ok] in
  let r' := step (world r) (buffer r) (hello 3 send_ok) in
  lock (buffer r) = false /\
  current_size (buffer r) + 1 < BUFFER_SIZE /\
  entry 0%nat (buffer r') =
    entry 0%nat (buffer r)
    ++ lines_recorded 0%nat (recorded (hello 3 send_ok)) /\
  world r' = world r.
Proof.
  intros E r r'.
  split; [reflexivity | split; [vm_compute; reflexivity|]].
  apply (@record_extends_own_entry E (world r) (buffer r)
           (hello 3 send_ok) 0%nat).
  - reflexivity.
  - reflexivity.
  - vm_compute. reflexivity.
Defined.

(** The greedy grouping of [Demo] keeps the lines of every list of lines
    without line breaks. *)
Lemma lines_of_batch_nonempty (s : string) : lines_of_batch s <> [].
Proof.
  induction s as [|a s IH]; cbn [lines_of_batch]; [discriminate|].
  destruct (Ascii.eqb a newline); [discriminate|].
  destruct (lines_of_batch s); discriminate.
Qed.

Lemma lines_of_batch_join (current l : string) :
  lines_of_batch (current ++ String newline l)%string =
  lines_of_batch current ++ lines_of_batch l.
Proof.
  induction current as [|a current IH]; cbn [String.append lines_of_batch].
  - now rewrite Ascii.eqb_refl.
  - rewrite IH. destruct (Ascii.eqb a newline); [reflexivity|].
    pose proof (lines_of_batch_nonempty current) as Hne.
    destruct (lines_of_batch current); [contradiction | reflexivity].
Qed.

Lemma lines_of_batch_line (l : string) :
  Scenarios.no_newline l = true -> lines_of_batch l = [l].
Proof.
  induction l as [|a l IH]; cbn [Scenarios.no_newline lines_of_batch];
    [reflexivity|].
  intros H. apply andb_prop in H as [Ha Hl].
  apply negb_true_iff in Ha. rewrite Ha, (IH Hl). reflexivity.
Qed.

Lemma group_from_keeps_lines (max_size : nat) (ls : list string) :
  forall current,
  forallb Scenarios.no_newline ls = true ->
  List.concat (map lines_of_batch (group_from max_size current ls)) =
  lines_of_batch current ++ ls.
Proof.
  induction ls as [|l ls IH]; intros current Hok; cbn [group_from].
  - reflexivity.
  - cbn [forallb] in Hok. apply andb_prop in Hok as [Hl Hok].
    destruct (String.length current + 1 + String.length l <=? max_size)%nat.
    + rewrite (IH _ Hok), lines_of_batch_join, (lines_of_batch_line l Hl).
      now rewrite <- app_assoc.
    + cbn [map List.concat].
      rewrite (IH _ Hok), (lines_of_batch_line l Hl). reflexivity.
Qed.

Lemma group_greedy_keeps_lines (max_size : nat) (ls : list string) :
  forallb Scenarios.no_newline ls = true ->
  List.concat (map lines_of_batch (group_greedy max_size ls)) = ls.
Proof.
  destruct ls as [|l ls]; [reflexivity|]. intros Hok.
  cbn [forallb] in Hok. apply andb_prop in Hok as [Hl Hok].
  cbn [group_greedy].
  now rewrite (group_from_keeps_lines _ _ _ Hok), (lines_of_batch_line l Hl).
Qed.

(** Threshold 3 and the greedy grouping, five record calls for
    destinations 0, 1, 0, 1, 0: the third call flushes, the two lines of
    destination 0 go out joined in one batch, and its third line is
    pending. *)
Lemma lines_conserved_witness :
  let E := env 3 send_ok in
  let r := run_fresh 0%nat (Scenarios.five_calls E 0%nat 1%nat) in
  existsb raises (trace r) = false /\
  forallb Scenarios.no_newline (lines_recorded 0%nat (trace r)) = true /\
  List.length (lines_recorded 0%nat (trace r)) = 3%nat /\
  List.length (batches_to 0%nat (trace r)) = 1%nat /\
  List.length (entry 0%nat (buffer r)) = 1%nat /\
  List.concat (map lines_of_batch (batches_to 0%nat (trace r)))
  ++ entry 0%nat (buffer r)
  = lines_recorded 0%nat (trace r).
Proof.
  intros E r.
  do 5 (split; [reflexivity|]).
  apply (@lines_conserved E lines_of_batch Scenarios.no_newline 0%nat
           (Scenarios.five_calls E 0%nat 1%nat) 0%nat).
  - exact (group_greedy_keeps_lines 80).
  - reflexivity.
  - reflexivity.
Defined.

